(** * Frame sequences: a shallow embedding of [src/index.js]

    The JavaScript module exports one factory function, [Sequence(...args)],
    whose closure holds a frame array [_frames] and a chunk size
    [_chunkSize].  The embedding below follows the source function by
    function.

    Modelling conventions.
    - A JavaScript number is a finite binary64 value, represented by the
      rational it denotes ([Q]); arithmetic that can round ([/], [+], [*] on
      non-integers) goes through [fl], round-to-nearest-even to 53 bits.
      NaN, infinities and the sign of zero are not represented.
    - Frames are the results of [Math.trunc], hence integers ([Z]); they are
      taken in the range where binary64 holds integers exactly, so integer
      [+] and [-] do not round and [`${n}`] is plain decimal.
    - A string is a sequence of code units below 256 ([string]).
    - [undefined] read from an array is [None].
    - A call that can throw returns a [result]. *)

From Stdlib Require Import ZArith QArith Qround Qabs Qpower List String Ascii Bool Lia.
From Stdlib Require Import Sorting.Sorted Sorting.Permutation.
Import ListNotations.

Local Open Scope string_scope.
Local Open Scope list_scope.
Local Open Scope Z_scope.

(** ** Errors and the small exception monad *)

Inductive error : Type :=
| RangeError (msg : string)
| TypeError.

Inductive result (A : Type) : Type :=
| Ok (a : A)
| Throw (e : error).

Arguments Ok {A} a.
Arguments Throw {A} e.

Definition bind {A B : Type} (m : result A) (k : A -> result B) : result B :=
  match m with
  | Ok a => k a
  | Throw e => Throw e
  end.

Notation "x <- m ;; k" := (bind m (fun x => k))
  (at level 61, m at next level, right associativity).

(** [arr.map(f)] where [f] may throw: the first exception aborts the map. *)
Fixpoint mapM {A B : Type} (f : A -> result B) (l : list A) : result (list B) :=
  match l with
  | [] => Ok []
  | x :: l' => y <- f x ;; ys <- mapM f l' ;; Ok (y :: ys)
  end.

(** ** JavaScript numbers *)

(** [2^k] for an integer exponent of either sign. *)
Definition Qpow2 (k : Z) : Q := (2 ^ k)%Q.

(** [floor (log2 q)] for [q > 0]. *)
Definition Qlog2 (q : Q) : Z :=
  let k := Z.log2 (Qnum q) - Z.log2 (Zpos (Qden q)) in
  if Qle_bool (Qpow2 k) q then k else k - 1.

(** Round to the nearest integer, ties to even. *)
Definition round_half_even (m : Q) : Z :=
  let f := Qfloor m in
  match Qcompare (m - inject_Z f) (1 # 2) with
  | Lt => f
  | Gt => f + 1
  | Eq => if Z.even f then f else f + 1
  end.

(** Round a rational to binary64 (53 significant bits, nearest-even), in the
    normal range. *)
Definition fl (q : Q) : Q :=
  match Qcompare q 0 with
  | Eq => 0%Q
  | c =>
      let a := Qabs q in
      let s := Qpow2 (52 - Qlog2 a) in
      let r := (inject_Z (round_half_even (a * s)) / s)%Q in
      match c with Lt => (- r)%Q | _ => r end
  end.

Definition js_add (x y : Q) : Q := fl (x + y).
Definition js_mul (x y : Q) : Q := fl (x * y).
Definition js_div (x y : Q) : Q := fl (x / y).

(** [Math.floor] and [Math.trunc] on a finite number. *)
Definition Math_floor (q : Q) : Z := Qfloor q.
Definition Math_trunc_num (q : Q) : Z := Z.quot (Qnum q) (Zpos (Qden q)).

(** Relational operators with a possibly-[undefined] operand: [undefined]
    converts to NaN and every comparison with NaN is false. *)
Definition js_gt (a b : option Z) : bool :=
  match a, b with
  | Some x, Some y => y <? x
  | _, _ => false
  end.

Definition js_lt (a b : option Z) : bool :=
  match a, b with
  | Some x, Some y => x <? y
  | _, _ => false
  end.

(** ** Strings: digits, [Number(str)] and [`${n}`] *)

Definition is_digit (c : ascii) : bool :=
  ((48 <=? nat_of_ascii c) && (nat_of_ascii c <=? 57))%nat.

(** [[1-9]] *)
Definition is_digit19 (c : ascii) : bool :=
  ((49 <=? nat_of_ascii c) && (nat_of_ascii c <=? 57))%nat.

(** [\s] restricted to code units below 256, and the comma:
    the character class of [SPLIT_SPEC_REGEX = /[\s,,]+/]. *)
Definition is_space (c : ascii) : bool :=
  let n := nat_of_ascii c in
  ((9 <=? n) && (n <=? 13) || (n =? 32) || (n =? 160))%nat.

Definition is_sep (c : ascii) : bool :=
  is_space c || Ascii.eqb c ","%char.

Definition digit_val (c : ascii) : Z := Z.of_nat (nat_of_ascii c) - 48.

Fixpoint digits_value (s : string) (acc : Z) : Z :=
  match s with
  | EmptyString => acc
  | String c s' => digits_value s' (10 * acc + digit_val c)
  end.

(** [Number(s)] for a string matched by [-?\d+]. *)
Definition Number_of_string (s : string) : Z :=
  match s with
  | String c s' =>
      if Ascii.eqb c "-"%char then - digits_value s' 0 else digits_value s 0
  | EmptyString => 0
  end.

Definition digit_char (d : Z) : ascii := ascii_of_nat (48 + Z.to_nat d).

Fixpoint digits_str (fuel : nat) (n : Z) (acc : string) : string :=
  match fuel with
  | O => acc
  | S f =>
      let acc' := String (digit_char (n mod 10)) acc in
      if n <? 10 then acc' else digits_str f (n / 10) acc'
  end.

(** Decimal digits of a non-negative integer; the fuel bounds the number of
    digits. *)
Definition nat_str (n : Z) : string :=
  digits_str (S (Z.to_nat (Z.log2 n))) n "".

(** [`${n}`] for an integer [n]. *)
Definition num_str (n : Z) : string :=
  if n <? 0 then String "-"%char (nat_str (- n)) else nat_str n.

(** [Math.trunc(x)] coerces its argument with [Number]: the two argument
    kinds [_range] receives. *)
Class Numeric (A : Type) := Math_trunc : A -> Z.

#[export] Instance Numeric_number : Numeric Q := Math_trunc_num.
#[export] Instance Numeric_string : Numeric string := Number_of_string.

(** ** Arrays: [new Set], [sort], [join], [split] *)

(** [new Set(arr)] keeps the first occurrence of each value, in insertion
    order. *)
Definition set_add (seen : list Z) (x : Z) : list Z :=
  if existsb (Z.eqb x) seen then seen else seen ++ [x].

Definition Set_ (arr : list Z) : list Z := fold_left set_add arr [].

(** The comparator [(a, b) => (a < b ? -1 : 1)]. *)
Definition cmp (a b : Z) : Z := if a <? b then -1 else 1.

Fixpoint insert (x : Z) (l : list Z) : list Z :=
  match l with
  | [] => [x]
  | y :: l' => if cmp x y <? 0 then x :: l else y :: insert x l'
  end.

(** [arr.sort(cmp)], as an insertion sort driven by the comparator. *)
Definition sort (arr : list Z) : list Z := fold_right insert [] arr.

(** [arr.join(sep)] *)
Fixpoint join (sep : string) (l : list string) : string :=
  match l with
  | [] => ""
  | [x] => x
  | x :: rest => (x ++ sep ++ join sep rest)%string
  end.

(** [str.split(SPLIT_SPEC_REGEX)]: the pieces between maximal runs of
    separators; a leading or trailing run leaves an empty piece, and the
    empty string splits into one empty piece.  The head of the result is
    the piece being read; [in_sep] says that the previous character was a
    separator. *)
Fixpoint split_go (in_sep : bool) (s : string) : list string :=
  match s with
  | EmptyString => [""]
  | String c s' =>
      if is_sep c then
        if in_sep then split_go true s' else "" :: split_go true s'
      else
        match split_go false s' with
        | piece :: pieces => String c piece :: pieces
        | [] => [String c ""]
        end
  end.

Definition split_spec (s : string) : list string := split_go false s.

(** ** [PROGRESSION_SPEC_REGEX]

    first = -?\d+, then optionally: '-', last = -?\d+, then optionally:
    'x', step = [1-9][0-9]* ; anchored at both ends.
    Every quantifier is followed by a character outside its own class (or by
    the end of input), so greedy matching never backtracks into a shorter
    match and a left-to-right scan decides the regex. *)

(** [\d*]: the longest digit prefix and the rest. *)
Fixpoint span_digits (s : string) : string * string :=
  match s with
  | EmptyString => ("", "")
  | String c s' =>
      if is_digit c then
        let (d, r) := span_digits s' in (String c d, r)
      else ("", s)
  end.

(** [\d+] *)
Definition scan_digits1 (s : string) : option (string * string) :=
  match span_digits s with
  | (EmptyString, _) => None
  | (d, r) => Some (d, r)
  end.

(** [-?\d+] *)
Definition scan_int (s : string) : option (string * string) :=
  match s with
  | String c s' =>
      if Ascii.eqb c "-"%char then
        match scan_digits1 s' with
        | Some (d, r) => Some (String c d, r)
        | None => None
        end
      else scan_digits1 s
  | EmptyString => None
  end.

(** [[1-9][0-9]*] *)
Definition scan_step (s : string) : option (string * string) :=
  match s with
  | String c s' =>
      if is_digit19 c then
        let (d, r) := span_digits s' in Some (String c d, r)
      else None
  | EmptyString => None
  end.

(** The named groups of a successful match; an unmatched group is
    [undefined]. *)
Record groups : Type := {
  g_first : string;
  g_last : option string;
  g_step : option string
}.

(** [token.match(PROGRESSION_SPEC_REGEX)]; [None] is the [null] result. *)
Definition match_token (tok : string) : option groups :=
  match scan_int tok with
  | None => None
  | Some (first, r1) =>
      match r1 with
      | EmptyString => Some {| g_first := first; g_last := None; g_step := None |}
      | String c1 r2 =>
          if negb (Ascii.eqb c1 "-"%char) then None else
          match scan_int r2 with
          | None => None
          | Some (last, r3) =>
              match r3 with
              | EmptyString =>
                  Some {| g_first := first; g_last := Some last; g_step := None |}
              | String c3 r4 =>
                  if negb (Ascii.eqb c3 "x"%char) then None else
                  match scan_step r4 with
                  | Some (step, EmptyString) =>
                      Some {| g_first := first; g_last := Some last;
                              g_step := Some step |}
                  | _ => None
                  end
              end
          end
      end
  end.

(** ** [_range] *)

(** The loop [for (let i = first; i <= last; i += stepVal) result.push(i)]. *)
Fixpoint range_loop (fuel : nat) (i last stepVal : Z) : list Z :=
  match fuel with
  | O => []
  | S f =>
      if i <=? last then i :: range_loop f (i + stepVal) last stepVal else []
  end.

(** [stepVal >= 1], so [last - first + 1] iterations always reach the exit
    test (lemma [range_loop_fuel]). *)
Definition _range {A : Type} `{Numeric A}
    (first : A) (last step : option A) : list Z :=
  let first := Math_trunc first in
  let last := match last with None => first | Some l => Math_trunc l end in
  let step := match step with None => 1 | Some s => Math_trunc s end in
  let sorted := sort [first; last] in
  let first := nth 0 sorted 0 in
  let last := nth 1 sorted 0 in
  let stepVal := Z.max 1 step in
  range_loop (Z.to_nat (last - first + 1)) first last stepVal.

(** ** [_flatten] *)

(** The arguments of a call [Sequence(...args)], by the tests [_flatten]
    makes on them: [args.length === 0], [typeof args[0]], [Array.isArray]. *)
Inductive other_value : Type :=
| OUndefined
| ONull
| OBoolean (b : bool)
| OObject.

Inductive arguments : Type :=
| NoArgs
| NumArgs (first : Q) (last step : option Q)
| StrArg (spec : string)
| ArrArg (arr : list Q)
| OtherArg (v : other_value).

Definition errmsg : string :=
  "Please provide a valid set of frames. Example: 1, 2-5, 10-20x2".

(** The callback of [reduce] in the spec-string branch. *)
Definition flatten_token (accum : list Z) (tok : string) : result (list Z) :=
  match match_token tok with
  | Some m => Ok (accum ++ _range (g_first m) (g_last m) (g_step m))
  | None => Throw (RangeError errmsg)
  end.

Fixpoint reduce {A B : Type} (f : B -> A -> result B) (l : list A) (accum : B)
  : result B :=
  match l with
  | [] => Ok accum
  | x :: l' => accum' <- f accum x ;; reduce f l' accum'
  end.

(** [_flatten] returns an array, or [undefined] ([None]) when no branch
    applies, or throws. *)
Definition _flatten (args : arguments) : result (option (list Z)) :=
  match args with
  | NoArgs => Ok (Some [])
  | NumArgs first last step => Ok (Some (_range first last step))
  | StrArg spec =>
      result <- reduce flatten_token (split_spec spec) [] ;;
      Ok (Some (sort (Set_ result)))
  | ArrArg arr => Ok (Some (sort (Set_ (map Math_trunc arr))))
  | OtherArg _ => Ok None
  end.

(** ** [_isProgression], [_progressions], [_spec] *)

Definition _isProgression (arr : list Z) : bool :=
  if (List.length arr <? 3)%nat then true
  else
    let gap := nth 1 arr 0 - nth 0 arr 0 in
    negb (existsb
            (fun i =>
               if (i <? 1)%nat then false
               else negb (nth i arr 0 - nth (i - 1) arr 0 =? gap))
            (seq 0 (List.length arr))).

(** [results[i].push(element)] *)
Fixpoint push_at (i : nat) (element : Z) (results : list (list Z))
  : list (list Z) :=
  match results, i with
  | [], _ => []
  | r :: rs, O => (r ++ [element]) :: rs
  | r :: rs, S i' => r :: push_at i' element rs
  end.

(** One iteration of the [forEach] in [_progressions], on the pair
    ([results], [i]). *)
Definition progressions_step (st : list (list Z) * nat) (element : Z)
  : list (list Z) * nat :=
  let (results, i) := st in
  let curr := nth i results [] in
  let st' :=
    if negb ((List.length curr <? 2)%nat
             || (nth 1 curr 0 - nth 0 curr 0 =? element - last curr 0))
    then (results ++ [[]], S i)
    else (results, i) in
  (push_at (snd st') element (fst st'), snd st').

Definition _progressions (arr : list Z) : list (list Z) :=
  fst (fold_left progressions_step (sort arr) ([[]], O)).

(** The callback of [map] in [_spec].  An empty progression reads
    [undefined] at every index. *)
Definition spec_of_progression (p : list Z) : string :=
  match p with
  | [] => "undefined-undefinedxNaN"
  | p0 :: _ =>
      if (List.length p =? 1)%nat then num_str p0
      else
        let gap := nth 1 p 0 - p0 in
        if gap =? 1 then (num_str p0 ++ "-" ++ num_str (last p 0))%string
        else (num_str p0 ++ "-" ++ num_str (last p 0) ++ "x" ++ num_str gap)%string
  end.

Definition _spec (arr : list Z) : string :=
  if (List.length arr =? 0)%nat then ""
  else join "," (map spec_of_progression (_progressions arr)).

(** ** The [Sequence] object *)

(** The two variables the closure holds. *)
Record SequenceT : Type := {
  _frames : list Z;
  _chunkSize : Z
}.

(** [Sequence(...args)]: [_frames.push(..._flatten(...args))] throws a
    [TypeError] when [_flatten] returned [undefined], which is not iterable. *)
Definition Sequence (args : arguments) : result SequenceT :=
  fr <- _flatten args ;;
  match fr with
  | None => Throw TypeError
  | Some l => Ok {| _frames := l; _chunkSize := 1 |}
  end.

(** An array of frames passed back to the constructor. *)
Definition of_frames (l : list Z) : arguments := ArrArg (map inject_Z l).

Definition frames (s : SequenceT) : list Z := _frames s.

Definition first (s : SequenceT) : option Z := nth_error (_frames s) 0.

(** [_frames.slice(-1)[0]] *)
Definition last_ (s : SequenceT) : option Z :=
  nth_error (skipn (List.length (_frames s) - 1) (_frames s)) 0.

Definition spec (s : SequenceT) : string := _spec (_frames s).

Definition isProgression (s : SequenceT) : bool := _isProgression (_frames s).

(** [None] is [undefined]. *)
Definition step (s : SequenceT) : option Z :=
  if _isProgression (_frames s) then
    if (1 <? List.length (_frames s))%nat
    then Some (nth 1 (_frames s) 0 - nth 0 (_frames s) 0)
    else Some 1
  else None.

Definition length_ (s : SequenceT) : Z := Z.of_nat (List.length (_frames s)).

Definition setChunkSize (value : Z) (s : SequenceT) : SequenceT :=
  {| _frames := _frames s; _chunkSize := Z.max 1 value |}.

Definition chunkSize (s : SequenceT) : Z := _chunkSize s.

Definition progressions (s : SequenceT) : result (list SequenceT) :=
  mapM (fun p => Sequence (of_frames p)) (_progressions (_frames s)).

(** One iteration of the [forEach] in [chunks], on the pair
    ([result], [chunk]); [i] is the index of [f] in [arr]. *)
Definition chunks_step (enforceProgressions : bool) (chunkSize : Z)
    (arr : list Z) (st : list SequenceT * list Z) (i : nat) (f : Z)
  : result (list SequenceT * list Z) :=
  let (result, chunk) := st in
  let chunk := chunk ++ [f] in
  let doNewChunk :=
    if Z.of_nat (List.length chunk) =? chunkSize then true
    else if Z.of_nat i =? Z.of_nat (List.length arr) - 1 then true
    else if enforceProgressions
            && negb (_isProgression (chunk ++ [nth (i + 1) arr 0]))
    then true
    else false in
  if doNewChunk then
    c <- Sequence (of_frames chunk) ;; Ok (result ++ [c], [])
  else Ok (result, chunk).

Fixpoint chunks_loop (enforceProgressions : bool) (chunkSize : Z)
    (arr rest : list Z) (i : nat) (st : list SequenceT * list Z)
  : result (list SequenceT * list Z) :=
  match rest with
  | [] => Ok st
  | f :: rest' =>
      st' <- chunks_step enforceProgressions chunkSize arr st i f ;;
      chunks_loop enforceProgressions chunkSize arr rest' (S i) st'
  end.

Definition chunks (enforceProgressions : bool) (s : SequenceT)
  : result (list SequenceT) :=
  st <- chunks_loop enforceProgressions (_chunkSize s)
          (_frames s) (_frames s) 0 ([], []) ;;
  Ok (fst st).

(** [arr.includes(f)] *)
Definition includes (arr : list Z) (f : Z) : bool := existsb (Z.eqb f) arr.

Definition intersects (s other : SequenceT) : bool :=
  if js_gt (first s) (last_ other) || js_lt (last_ s) (first other) then false
  else
    let other_frames := frames other in
    existsb (fun f => includes other_frames f) (_frames s).

Definition intersection (s other : SequenceT) : result SequenceT :=
  let other_frames := frames other in
  Sequence (of_frames (filter (fun f => includes other_frames f) (_frames s))).

Definition union (s other : SequenceT) : result SequenceT :=
  Sequence (of_frames (_frames s ++ frames other)).

Definition difference (s other : SequenceT) : result SequenceT :=
  let other_frames := frames other in
  Sequence
    (of_frames (filter (fun f => negb (includes other_frames f)) (_frames s))).

Definition offset (value : Q) (s : SequenceT) : result SequenceT :=
  r <- Sequence (ArrArg (map (fun f => js_add (inject_Z f) value) (_frames s))) ;;
  Ok (setChunkSize (_chunkSize s) r).

Definition scale (value : Q) (s : SequenceT) : result SequenceT :=
  r <- Sequence
         (ArrArg (map (fun f => inject_Z (Math_trunc (js_mul (inject_Z f) value)))
                      (_frames s))) ;;
  Ok (setChunkSize (_chunkSize s) r).

(** [Sequence(first(), last(), step)]: on an empty sequence the first
    argument is [undefined]. *)
Definition fill (step : Q) (s : SequenceT) : result SequenceT :=
  r <- match first s with
       | Some f =>
           Sequence (NumArgs (inject_Z f) (option_map inject_Z (last_ s))
                             (Some step))
       | None => Sequence (OtherArg OUndefined)
       end ;;
  Ok (setChunkSize (_chunkSize s) r).

Definition intersectingChunks (s other : SequenceT) : result (list SequenceT) :=
  cs <- chunks true s ;;
  Ok (filter (fun c => intersects c other) cs).

(** The loop of [subsample], [k] iterations from position [pos].  A read
    past the end of [_frames] would be [undefined]; the model reads [0]
    there (the last position is about [n - gap / 2], so such a read needs
    rounding errors that add up to one half). *)
Fixpoint subsample_loop (k : nat) (pos gap : Q) (fr : list Z) : list Z :=
  match k with
  | O => []
  | S k' =>
      nth (Z.to_nat (Math_floor pos)) fr 0
      :: subsample_loop k' (js_add pos gap) gap fr
  end.

(** [subsample(count)] for an integer [count]. *)
Definition subsample (count : Z) (s : SequenceT) : result SequenceT :=
  let n := Z.of_nat (List.length (_frames s)) in
  let count := Z.min (Z.max 1 count) n in
  let gap := js_div (inject_Z n) (inject_Z count) in
  let pos := js_div gap 2 in
  Sequence (of_frames (subsample_loop (Z.to_nat count) pos gap (_frames s))).

(** * Definitions used in the statements *)

(** ** Canonical lists and reachable instances *)

(** Strictly ascending; in particular duplicate-free. *)
Definition ascending (l : list Z) : Prop := StronglySorted Z.lt l.

(** The Sequence instances a program can hold: results of the constructor,
    closed under [setChunkSize] and under every operation that returns
    Sequences. *)
Inductive instance : SequenceT -> Prop :=
| I_Sequence args s :
    Sequence args = Ok s -> instance s
| I_setChunkSize value s :
    instance s -> instance (setChunkSize value s)
| I_progressions s ps p :
    instance s -> progressions s = Ok ps -> In p ps -> instance p
| I_chunks e s cs c :
    instance s -> chunks e s = Ok cs -> In c cs -> instance c
| I_intersection s other r :
    instance s -> instance other -> intersection s other = Ok r -> instance r
| I_union s other r :
    instance s -> instance other -> union s other = Ok r -> instance r
| I_difference s other r :
    instance s -> instance other -> difference s other = Ok r -> instance r
| I_offset value s r :
    instance s -> offset value s = Ok r -> instance r
| I_scale value s r :
    instance s -> scale value s = Ok r -> instance r
| I_fill step s r :
    instance s -> fill step s = Ok r -> instance r
| I_intersectingChunks s other cs c :
    instance s -> instance other -> intersectingChunks s other = Ok cs ->
    In c cs -> instance c
| I_subsample count s r :
    instance s -> subsample count s = Ok r -> instance r.

(** ** Progressions and greedy partitions *)

(** Every pair of neighbours in [l] differs by [g]. *)
Fixpoint constant_gap (g : Z) (l : list Z) : Prop :=
  match l with
  | x :: ((y :: _) as t) => y - x = g /\ constant_gap g t
  | _ => True
  end.

(** The acceptance test of [_progressions]. *)
Definition accepts (curr : list Z) (element : Z) : bool :=
  (List.length curr <? 2)%nat
  || (nth 1 curr 0 - nth 0 curr 0 =? element - last curr 0).

(** [extend curr xs]: the runs produced from the open run [curr] and the
    elements [xs] still to come. *)
Fixpoint extend (curr : list Z) (xs : list Z) : list (list Z) :=
  match xs with
  | [] => [curr]
  | e :: xs' =>
      if accepts curr e then extend (curr ++ [e]) xs'
      else curr :: extend [e] xs'
  end.

(** A partition into non-empty progressions none of which can take the
    first element of the next one. *)
Inductive greedy_runs : list (list Z) -> Prop :=
| greedy_one r :
    _isProgression r = true -> r <> [] -> greedy_runs [r]
| greedy_cons r e r' rs :
    _isProgression r = true -> r <> [] ->
    _isProgression (r ++ [e]) = false ->
    greedy_runs ((e :: r') :: rs) ->
    greedy_runs (r :: (e :: r') :: rs).

(** ** Chunks *)

(** The test of [doNewChunk], on the chunk after [chunk.push(f)]. *)
Definition closes (e : bool) (size : Z) (arr chunk : list Z) (i : nat) : bool :=
  (Z.of_nat (List.length chunk) =? size)
  || (Z.of_nat i =? Z.of_nat (List.length arr) - 1)
  || (e && negb (_isProgression (chunk ++ [nth (i + 1) arr 0]))).

(** [Sequence(chunk)] *)
Definition wrap (l : list Z) : SequenceT :=
  {| _frames := sort (Set_ l); _chunkSize := 1 |}.

(** The frame lists [chunks] closes, read off the loop: [rest] are the frames
    still to visit, [i] the index of the first of them, [chunk] the open
    chunk. *)
Fixpoint chunk_lists (e : bool) (size : Z) (arr rest : list Z) (i : nat)
    (chunk : list Z) : list (list Z) :=
  match rest with
  | [] => []
  | f :: rest' =>
      if closes e size arr (chunk ++ [f]) i
      then (chunk ++ [f]) :: chunk_lists e size arr rest' (S i) []
      else chunk_lists e size arr rest' (S i) (chunk ++ [f])
  end.

(** What the loop guarantees about the closed chunks: none is empty, none is
    longer than the chunk size, and a chunk that is followed by another one
    is either full or cannot take the first frame of its successor. *)
Inductive chunked (e : bool) (size : Z) : list (list Z) -> Prop :=
| chunked_nil : chunked e size []
| chunked_last c :
    c <> [] -> Z.of_nat (List.length c) <= size -> chunked e size [c]
| chunked_cons c f c' cs :
    c <> [] -> Z.of_nat (List.length c) <= size ->
    Z.of_nat (List.length c) = size
    \/ (e = true /\ _isProgression (c ++ [f]) = false) ->
    chunked e size ((f :: c') :: cs) ->
    chunked e size (c :: (f :: c') :: cs).

(** ** The grammar of the spec notation

    token := INT ( "-" INT ( "x" STEP )? )?,  INT := "-"? DIGIT+,
    STEP := [1-9][0-9]* ; written down from the grammar, independently of
    the scanner, and indexed by the three groups it delimits. *)

Fixpoint all_chars (p : ascii -> bool) (s : string) : bool :=
  match s with
  | EmptyString => true
  | String c s' => p c && all_chars p s'
  end.

Definition head_is (p : ascii -> bool) (s : string) : bool :=
  match s with
  | EmptyString => false
  | String c _ => p c
  end.

Definition grammar_DIGITS (s : string) : Prop :=
  s <> "" /\ all_chars is_digit s = true.

Inductive grammar_INT : string -> Prop :=
| INT_plain d : grammar_DIGITS d -> grammar_INT d
| INT_minus d : grammar_DIGITS d -> grammar_INT (String "-"%char d).

Inductive grammar_STEP : string -> Prop :=
| STEP_intro c d :
    is_digit19 c = true -> all_chars is_digit d = true ->
    grammar_STEP (String c d).

Inductive grammar_token : string -> groups -> Prop :=
| token_first a :
    grammar_INT a ->
    grammar_token a {| g_first := a; g_last := None; g_step := None |}
| token_last a b :
    grammar_INT a -> grammar_INT b ->
    grammar_token (a ++ "-" ++ b)
                  {| g_first := a; g_last := Some b; g_step := None |}
| token_step a b g :
    grammar_INT a -> grammar_INT b -> grammar_STEP g ->
    grammar_token (a ++ "-" ++ b ++ "x" ++ g)
                  {| g_first := a; g_last := Some b; g_step := Some g |}.

Definition not_sep (c : ascii) : bool := negb (is_sep c).

(** The frames a matched token stands for, as the spec words it: from the
    smaller to the larger of [first] and [last] (a lone [first] stands for
    itself), inclusive, in steps of [step] (1 when absent). *)
Definition token_frames (m : groups) (z : Z) : Prop :=
  let f := Number_of_string (g_first m) in
  let l := match g_last m with Some b => Number_of_string b | None => f end in
  let st := match g_step m with Some g => Number_of_string g | None => 1 end in
  exists k, 0 <= k /\ z = Z.min f l + k * st /\ z <= Z.max f l.

(** The conditions every run of a canonical non-empty list meets. *)
Definition run (p : list Z) : Prop :=
  p <> [] /\ _isProgression p = true /\ ascending p.

(** The frames one token of a spec string contributes; none when the token
    does not match. *)
Definition frames_of_token (tok : string) : list Z :=
  match match_token tok with
  | Some m => _range (g_first m) (g_last m) (g_step m)
  | None => []
  end.

(** ** Subsampling *)

(** The position read at iteration [i]: [gap / 2] advanced [i] times by
    [gap], each operation rounded. *)
Definition bucket_position (gap : Q) (i : nat) : Q :=
  Nat.iter i (fun pos => js_add pos gap) (js_div gap 2).

(** ** Sample sequences *)

(** The frames of a successful construction. *)
Definition frames_of (r : result SequenceT) : option (list Z) :=
  match r with
  | Ok s => Some (frames s)
  | Throw _ => None
  end.

Definition sample_mixed : SequenceT :=
  {| _frames := [-8; -6; -4; 1; 2; 3; 7]; _chunkSize := 1 |}.

Definition sample_1_5 : SequenceT :=
  {| _frames := [1; 2; 3; 4; 5]; _chunkSize := 1 |}.

Definition sample_1_10 : SequenceT :=
  {| _frames := [1; 2; 3; 4; 5; 6; 7; 8; 9; 10]; _chunkSize := 1 |}.

Definition sample_gaps : SequenceT :=
  setChunkSize 5
    {| _frames := [1; 2; 3; 5; 6; 7; 8; 10; 11; 12]; _chunkSize := 1 |}.

Definition sample_empty : SequenceT := {| _frames := []; _chunkSize := 1 |}.

Definition sample_unsorted : list Z := [16; 1; 3; 10; 2; 13].

Definition sample_tokens : list groups :=
  [ {| g_first := "5"; g_last := Some "1"; g_step := Some "2" |};
    {| g_first := "7"; g_last := None; g_step := None |} ].

(** * Properties *)

(** ** Canonical frame lists *)

Lemma ascending_NoDup (l : list Z) : ascending l -> NoDup l.
Proof.
  unfold ascending. induction 1 as [|x l Hl IH Hx]; constructor; [|assumption].
  intros Hin. rewrite Forall_forall in Hx. specialize (Hx _ Hin). lia.
Qed.

Lemma ascending_app (l1 l2 : list Z) :
  ascending (l1 ++ l2) <->
  ascending l1 /\ ascending l2 /\ (forall x y, In x l1 -> In y l2 -> x < y).
Proof.
  unfold ascending. induction l1 as [|a l1 IH]; simpl.
  - split; [intros H; repeat split; [constructor | assumption | contradiction]
           | intros (_ & H & _); assumption].
  - split.
    + intros H. inversion H as [|? ? Hs Ha]; subst.
      apply IH in Hs. destruct Hs as (H1 & H2 & H12).
      rewrite Forall_app in Ha. destruct Ha as [Ha1 Ha2].
      repeat split; [constructor; assumption | assumption |].
      intros x y [<-|Hx] Hy; [|auto].
      rewrite Forall_forall in Ha2. auto.
    + intros (H1 & H2 & H12). inversion H1 as [|? ? Hs Ha]; subst.
      constructor.
      * apply IH. repeat split; auto.
      * apply Forall_app. split; [assumption|].
        apply Forall_forall. intros y Hy. apply H12; [left; reflexivity | assumption].
Qed.

(** ** [sort] and [new Set] *)

Lemma cmp_lt (x y : Z) : (cmp x y <? 0) = (x <? y).
Proof. unfold cmp. destruct (x <? y); reflexivity. Qed.

Lemma insert_perm (x : Z) (l : list Z) : Permutation (x :: l) (insert x l).
Proof.
  induction l as [|y l IH]; simpl; [reflexivity|].
  rewrite cmp_lt. destruct (x <? y); [reflexivity|].
  rewrite perm_swap. apply perm_skip, IH.
Qed.

Lemma sort_perm (l : list Z) : Permutation l (sort l).
Proof.
  induction l as [|x l IH]; simpl; [constructor|].
  rewrite <- insert_perm. apply perm_skip, IH.
Qed.

Lemma insert_sorted (x : Z) (l : list Z) :
  StronglySorted Z.le l -> StronglySorted Z.le (insert x l).
Proof.
  induction 1 as [|y l Hl IH Hy]; simpl.
  - repeat constructor.
  - rewrite cmp_lt. destruct (Z.ltb_spec x y) as [Hlt|Hge].
    + constructor; [constructor; assumption|].
      constructor; [lia|]. eapply Forall_impl; [|exact Hy]. simpl. intros; lia.
    + constructor; [assumption|].
      eapply Permutation_Forall; [apply insert_perm|].
      constructor; assumption.
Qed.

Lemma sort_sorted (l : list Z) : StronglySorted Z.le (sort l).
Proof.
  induction l as [|x l IH]; simpl; [constructor | apply insert_sorted, IH].
Qed.

Lemma sorted_NoDup_ascending (l : list Z) :
  StronglySorted Z.le l -> NoDup l -> ascending l.
Proof.
  unfold ascending. induction 1 as [|x l Hl IH Hx]; intros Hnd; [constructor|].
  inversion Hnd as [|? ? Hnin Hnd']; subst. constructor; [auto|].
  rewrite Forall_forall in *. intros y Hy. specialize (Hx y Hy).
  assert (x <> y) by (intros ->; contradiction). lia.
Qed.

Lemma sort_ascending_id (l : list Z) : ascending l -> sort l = l.
Proof.
  unfold ascending. induction 1 as [|x l Hl IH Hx]; simpl; [reflexivity|].
  rewrite IH. destruct l as [|y l]; simpl; [reflexivity|].
  rewrite cmp_lt. inversion Hx; subst.
  destruct (Z.ltb_spec x y); [reflexivity | lia].
Qed.

Lemma includes_In (l : list Z) (x : Z) : includes l x = true <-> In x l.
Proof.
  unfold includes. rewrite existsb_exists. split.
  - intros (y & Hy & Heq). apply Z.eqb_eq in Heq. subst. assumption.
  - intros H. exists x. split; [assumption | apply Z.eqb_refl].
Qed.

Lemma set_add_In (seen : list Z) (x y : Z) :
  In y (set_add seen x) <-> In y seen \/ y = x.
Proof.
  unfold set_add. destruct (existsb (Z.eqb x) seen) eqn:E.
  - apply (includes_In seen x) in E. split; [auto|]. intros [H| ->]; assumption.
  - rewrite in_app_iff. simpl. intuition.
Qed.

Lemma set_add_NoDup (seen : list Z) (x : Z) :
  NoDup seen -> NoDup (set_add seen x).
Proof.
  intros H. unfold set_add. destruct (existsb (Z.eqb x) seen) eqn:E; [assumption|].
  apply NoDup_app; [assumption | repeat constructor; simpl; tauto |].
  intros y Hy [Hxy|[]]. subst y.
  apply (includes_In seen x) in Hy. unfold includes in Hy. congruence.
Qed.

Lemma fold_set_add_In (l seen : list Z) (y : Z) :
  In y (fold_left set_add l seen) <-> In y seen \/ In y l.
Proof.
  revert seen. induction l as [|x l IH]; intros seen; simpl; [tauto|].
  rewrite IH, set_add_In. intuition.
Qed.

Lemma fold_set_add_NoDup (l seen : list Z) :
  NoDup seen -> NoDup (fold_left set_add l seen).
Proof.
  revert seen. induction l as [|x l IH]; intros seen H; simpl; [assumption|].
  apply IH, set_add_NoDup, H.
Qed.

Lemma Set_In (l : list Z) (y : Z) : In y (Set_ l) <-> In y l.
Proof. unfold Set_. rewrite fold_set_add_In. simpl. tauto. Qed.

Lemma Set_NoDup (l : list Z) : NoDup (Set_ l).
Proof. apply fold_set_add_NoDup. constructor. Qed.

Lemma fold_set_add_id (l seen : list Z) :
  NoDup (seen ++ l) -> fold_left set_add l seen = seen ++ l.
Proof.
  revert seen. induction l as [|x l IH]; intros seen H; simpl.
  - symmetry. apply app_nil_r.
  - assert (E : set_add seen x = seen ++ [x]).
    { unfold set_add. destruct (existsb (Z.eqb x) seen) eqn:E; [|reflexivity].
      apply (includes_In seen x) in E. apply NoDup_remove_2 in H.
      exfalso. apply H. apply in_or_app. left. assumption. }
    rewrite E, IH; rewrite <- app_assoc; simpl; [reflexivity | assumption].
Qed.

Lemma Set_NoDup_id (l : list Z) : NoDup l -> Set_ l = l.
Proof. intros H. unfold Set_. rewrite fold_set_add_id; auto. Qed.

(** The tail of both array branches of [_flatten]. *)
Lemma sort_Set_ascending (l : list Z) : ascending (sort (Set_ l)).
Proof.
  apply sorted_NoDup_ascending; [apply sort_sorted|].
  eapply Permutation_NoDup; [apply sort_perm | apply Set_NoDup].
Qed.

Lemma sort_Set_In (l : list Z) (y : Z) : In y (sort (Set_ l)) <-> In y l.
Proof.
  split; intros H.
  - apply Set_In. eapply Permutation_in; [symmetry; apply sort_perm | exact H].
  - eapply Permutation_in; [apply sort_perm | apply Set_In; exact H].
Qed.

Lemma sort_Set_id (l : list Z) : ascending l -> sort (Set_ l) = l.
Proof.
  intros H. rewrite Set_NoDup_id by (apply ascending_NoDup, H).
  apply sort_ascending_id, H.
Qed.

(** ** [_range] *)

Lemma sort_pair (a b : Z) : sort [a; b] = [Z.min a b; Z.max a b].
Proof.
  simpl. rewrite cmp_lt. destruct (Z.ltb_spec a b).
  - rewrite Z.min_l, Z.max_r by lia. reflexivity.
  - rewrite Z.min_r, Z.max_l by lia. reflexivity.
Qed.

Section RangeLoop.

Variables (last stepVal : Z).
Hypothesis step_pos : 1 <= stepVal.

Lemma range_loop_sound (fuel : nat) (i z : Z) :
  In z (range_loop fuel i last stepVal) ->
  exists k, 0 <= k /\ z = i + k * stepVal /\ z <= last.
Proof.
  revert i. induction fuel as [|f IH]; intros i; simpl; [contradiction|].
  destruct (Z.leb_spec i last) as [Hle|Hgt]; [|contradiction].
  intros [<-|Hin].
  - exists 0. lia.
  - destruct (IH _ Hin) as (k & Hk & -> & Hz). exists (k + 1). lia.
Qed.

Lemma range_loop_complete (fuel : nat) (i k : Z) :
  0 <= k -> i + k * stepVal <= last -> last - i + 1 <= Z.of_nat fuel ->
  In (i + k * stepVal) (range_loop fuel i last stepVal).
Proof.
  revert i k. induction fuel as [|f IH]; intros i k Hk Hle Hfuel; simpl.
  - nia.
  - destruct (Z.leb_spec i last) as [Hi|Hi]; [|nia].
    destruct (Z.eq_dec k 0) as [->|Hnz]; [left; lia | right].
    replace (i + k * stepVal) with ((i + stepVal) + (k - 1) * stepVal) by lia.
    apply IH; nia.
Qed.

Lemma range_loop_ascending (fuel : nat) (i : Z) :
  ascending (range_loop fuel i last stepVal).
Proof.
  revert i. induction fuel as [|f IH]; intros i; simpl; [constructor|].
  destruct (i <=? last); [|constructor].
  constructor; [apply IH|].
  apply Forall_forall. intros z Hz.
  destruct (range_loop_sound _ _ _ Hz) as (k & Hk & -> & _). nia.
Qed.

(** Termination of the [for] loop: once the fuel covers [last - i + 1],
    the loop has met its exit test and more fuel changes nothing. *)
Lemma range_loop_fuel (fuel extra : nat) (i : Z) :
  last - i + 1 <= Z.of_nat fuel ->
  range_loop (fuel + extra) i last stepVal = range_loop fuel i last stepVal.
Proof.
  revert i. induction fuel as [|f IH]; intros i Hfuel; simpl.
  - destruct extra; simpl; [reflexivity|].
    destruct (Z.leb_spec i last); [lia | reflexivity].
  - destruct (Z.leb_spec i last); [|reflexivity].
    f_equal. apply IH. lia.
Qed.

End RangeLoop.

Lemma _range_unfold {A : Type} `{Numeric A} (first : A) (last step : option A) :
  let f := Math_trunc first in
  let l := match last with None => f | Some l => Math_trunc l end in
  let st := match step with None => 1 | Some s => Math_trunc s end in
  _range first last step =
  range_loop (Z.to_nat (Z.max f l - Z.min f l + 1))
             (Z.min f l) (Z.max f l) (Z.max 1 st).
Proof. intros f l st. unfold _range. rewrite sort_pair. reflexivity. Qed.

Lemma _range_ascending {A : Type} `{Numeric A} (first : A) (last step : option A) :
  ascending (_range first last step).
Proof. rewrite _range_unfold. apply range_loop_ascending. lia. Qed.

(** ** Every constructed [Sequence] is canonical *)

Lemma Sequence_inv (args : arguments) (s : SequenceT) :
  Sequence args = Ok s -> ascending (_frames s) /\ _chunkSize s = 1.
Proof.
  unfold Sequence. destruct args as [|f l st|sp|arr|v]; simpl.
  - intros [= <-]. split; [constructor | reflexivity].
  - intros [= <-]. split; [apply _range_ascending | reflexivity].
  - destruct (reduce flatten_token (split_spec sp) []); simpl; [|discriminate].
    intros [= <-]. split; [apply sort_Set_ascending | reflexivity].
  - intros [= <-]. split; [apply sort_Set_ascending | reflexivity].
  - discriminate.
Qed.

Lemma Math_trunc_inject_Z (z : Z) : Math_trunc (inject_Z z) = z.
Proof. unfold Math_trunc, Numeric_number, Math_trunc_num. simpl. apply Z.quot_1_r. Qed.

Lemma map_trunc_inject (l : list Z) : map Math_trunc (map inject_Z l) = l.
Proof.
  rewrite map_map. erewrite map_ext; [apply map_id|].
  intros z. apply Math_trunc_inject_Z.
Qed.

(** The array branch never throws. *)
Lemma Sequence_array (arr : list Q) :
  Sequence (ArrArg arr) =
  Ok {| _frames := sort (Set_ (map Math_trunc arr)); _chunkSize := 1 |}.
Proof. reflexivity. Qed.

Lemma Sequence_of_frames (l : list Z) :
  Sequence (of_frames l) = Ok {| _frames := sort (Set_ l); _chunkSize := 1 |}.
Proof. unfold of_frames. rewrite Sequence_array, map_trunc_inject. reflexivity. Qed.

(** Re-wrapping a canonical list is the identity on frames. *)
Lemma Sequence_of_ascending (l : list Z) :
  ascending l -> Sequence (of_frames l) = Ok {| _frames := l; _chunkSize := 1 |}.
Proof. intros H. rewrite Sequence_of_frames, sort_Set_id by assumption. reflexivity. Qed.

Lemma mapM_In {A B : Type} (f : A -> result B) (l : list A) (ys : list B) (y : B) :
  mapM f l = Ok ys -> In y ys -> exists x, In x l /\ f x = Ok y.
Proof.
  revert ys. induction l as [|x l IH]; intros ys; simpl.
  - intros [= <-] [].
  - destruct (f x) as [b|] eqn:Ef; simpl; [|discriminate].
    destruct (mapM f l) as [bs|]; simpl; [|discriminate].
    intros [= <-] [<-|Hin].
    + exists x. auto.
    + destruct (IH bs eq_refl Hin) as (x' & Hx' & Hf). exists x'. auto.
Qed.

Lemma chunks_step_eq (e : bool) (size : Z) (arr : list Z)
    (res : list SequenceT) (chunk : list Z) (i : nat) (f : Z) :
  chunks_step e size arr (res, chunk) i f =
  if closes e size arr (chunk ++ [f]) i
  then Ok (res ++ [{| _frames := sort (Set_ (chunk ++ [f])); _chunkSize := 1 |}], [])
  else Ok (res, chunk ++ [f]).
Proof.
  unfold chunks_step, closes. cbv zeta. rewrite Sequence_of_frames.
  destruct (Z.of_nat (List.length (chunk ++ [f])) =? size); [reflexivity|].
  destruct (Z.of_nat i =? Z.of_nat (List.length arr) - 1); [reflexivity|].
  destruct (e && negb (_isProgression ((chunk ++ [f]) ++ [nth (i + 1) arr 0])));
    reflexivity.
Qed.

(** Every chunk comes out of the constructor. *)
Lemma chunks_loop_constructed (e : bool) (size : Z) (arr rest : list Z) (i : nat)
    (st st' : list SequenceT * list Z) :
  chunks_loop e size arr rest i st = Ok st' ->
  Forall (fun c => exists a, Sequence a = Ok c) (fst st) ->
  Forall (fun c => exists a, Sequence a = Ok c) (fst st').
Proof.
  revert i st. induction rest as [|f rest IH]; intros i [res chunk].
  - simpl. intros [= <-]. auto.
  - cbn [chunks_loop]. rewrite chunks_step_eq.
    destruct (closes e size arr (chunk ++ [f]) i); cbn [bind].
    + intros Hloop Hres. eapply IH; [exact Hloop|]. cbn [fst].
      apply Forall_app. split; [assumption|]. repeat constructor.
      exists (of_frames (chunk ++ [f])). apply Sequence_of_frames.
    + intros Hloop Hres. eapply IH; [exact Hloop | assumption].
Qed.

Lemma chunks_constructed (e : bool) (s : SequenceT) (cs : list SequenceT) (c : SequenceT) :
  chunks e s = Ok cs -> In c cs -> exists a, Sequence a = Ok c.
Proof.
  unfold chunks.
  destruct (chunks_loop e (_chunkSize s) (_frames s) (_frames s) 0 ([], []))
    as [st|] eqn:E; simpl; [|discriminate].
  intros [= <-] Hin.
  apply chunks_loop_constructed in E; [|constructor].
  rewrite Forall_forall in E. auto.
Qed.

Lemma with_chunk_size_inv (m : result SequenceT) (size : Z) (r : SequenceT) :
  (x <- m ;; Ok (setChunkSize size x)) = Ok r ->
  exists x, m = Ok x /\ r = setChunkSize size x.
Proof. destruct m as [x|]; simpl; [|discriminate]. intros [= <-]. eauto. Qed.

Lemma instance_inv (s : SequenceT) :
  instance s -> ascending (_frames s) /\ 1 <= _chunkSize s.
Proof.
  assert (C : forall a c, Sequence a = Ok c ->
                          ascending (_frames c) /\ 1 <= _chunkSize c).
  { intros a c H. apply Sequence_inv in H. destruct H as [H1 H2].
    split; [assumption | lia]. }
  assert (W : forall (m : result SequenceT) size r,
             (forall x, m = Ok x -> ascending (_frames x)) ->
             (x <- m ;; Ok (setChunkSize size x)) = Ok r ->
             ascending (_frames r) /\ 1 <= _chunkSize r).
  { intros m size r Hm H. apply with_chunk_size_inv in H.
    destruct H as (x & Hx & ->). simpl. split; [auto | lia]. }
  induction 1 as [a s H | v s _ IH | s ps p _ _ H Hin | e s cs c _ _ H Hin
                 | s o r _ _ _ _ H | s o r _ _ _ _ H | s o r _ _ _ _ H
                 | v s r _ _ H | v s r _ _ H | st s r _ _ H
                 | s o cs c _ _ _ _ H Hin | n s r _ _ H];
    try (eapply C; exact H).
  - simpl. split; [apply IH | lia].
  - destruct (mapM_In _ _ _ _ H Hin) as (x & _ & Hx). eapply C; exact Hx.
  - destruct (chunks_constructed _ _ _ _ H Hin) as (a & Ha). eapply C; exact Ha.
  - eapply W; [|exact H]. intros x Hx. eapply C; exact Hx.
  - eapply W; [|exact H]. intros x Hx. eapply C; exact Hx.
  - eapply W; [|exact H]. intros x Hx.
    destruct (first s); eapply C; exact Hx.
  - unfold intersectingChunks in H.
    destruct (chunks true s) as [cs'|] eqn:E; simpl in H; [|discriminate].
    injection H as <-. apply filter_In in Hin. destruct Hin as [Hin _].
    destruct (chunks_constructed _ _ _ _ E Hin) as (a & Ha). eapply C; exact Ha.
Qed.

(** ** Arithmetic progressions *)

Lemma constant_gap_nth (g : Z) (l : list Z) :
  constant_gap g l <->
  forall i, (S i < List.length l)%nat -> nth (S i) l 0 - nth i l 0 = g.
Proof.
  induction l as [|x [|y t] IH].
  - simpl. split; [intros _ i Hi; lia | trivial].
  - simpl. split; [intros _ i Hi; lia | trivial].
  - change (constant_gap g (x :: y :: t)) with (y - x = g /\ constant_gap g (y :: t)).
    rewrite IH. split.
    + intros [Hg Ht] [|i] Hi; [exact Hg|]. apply (Ht i). simpl in *. lia.
    + intros H. split; [apply (H O); simpl; lia|].
      intros i Hi. apply (H (S i)). simpl in *. lia.
Qed.

Lemma _isProgression_spec (l : list Z) :
  _isProgression l = true <->
  match l with
  | x :: y :: _ => constant_gap (y - x) l
  | _ => True
  end.
Proof.
  unfold _isProgression.
  destruct (Nat.ltb_spec (List.length l) 3) as [Hlt|Hge].
  - destruct l as [|x [|y [|z t]]]; simpl in *; try tauto; try lia.
  - destruct l as [|x [|y t]]; [simpl in Hge; lia | simpl in Hge; lia |].
    change (nth 1 (x :: y :: t) 0) with y. change (nth 0 (x :: y :: t) 0) with x.
    rewrite negb_true_iff, constant_gap_nth. split.
    + intros H i Hi.
      destruct (Z.eq_dec (nth (S i) (x :: y :: t) 0 - nth i (x :: y :: t) 0) (y - x))
        as [E|E]; [exact E|].
      exfalso. apply (proj2 (not_true_iff_false _) H).
      apply existsb_exists. exists (S i). split; [apply in_seq; lia|].
      replace (S i - 1)%nat with i by lia.
      simpl (S i <? 1)%nat. cbv iota.
      apply negb_true_iff, Z.eqb_neq, E.
    + intros H. apply not_true_iff_false. intros Hex.
      apply existsb_exists in Hex. destruct Hex as (i & Hi & Hb).
      apply in_seq in Hi. destruct i as [|i]; [discriminate|].
      simpl (S i <? 1)%nat in Hb. cbv iota in Hb.
      replace (S i - 1)%nat with i in Hb by lia.
      apply negb_true_iff, Z.eqb_neq in Hb. apply Hb, H. lia.
Qed.

Lemma constant_gap_app (g : Z) (l1 l2 : list Z) :
  constant_gap g (l1 ++ l2) -> constant_gap g l1 /\ constant_gap g l2.
Proof.
  induction l1 as [|x [|y t] IH].
  - simpl. auto.
  - simpl. destruct l2; simpl; tauto.
  - change ((x :: y :: t) ++ l2) with (x :: y :: (t ++ l2)).
    intros [Hg Ht]. destruct (IH Ht) as [H1 H2].
    split; [split; assumption | assumption].
Qed.

Lemma constant_gap_snoc (g : Z) (l : list Z) (e : Z) :
  constant_gap g (l ++ [e]) <->
  constant_gap g l /\ (l = [] \/ e - last l 0 = g).
Proof.
  induction l as [|x [|y t] IH].
  - simpl. tauto.
  - simpl. intuition; discriminate.
  - change ((x :: y :: t) ++ [e]) with (x :: y :: (t ++ [e])).
    change (constant_gap g (x :: y :: t ++ [e]))
      with (y - x = g /\ constant_gap g ((y :: t) ++ [e])).
    change (constant_gap g (x :: y :: t))
      with (y - x = g /\ constant_gap g (y :: t)).
    change (last (x :: y :: t) 0) with (last (y :: t) 0).
    rewrite IH. intuition; discriminate.
Qed.

(** Prefixes and suffixes of a progression are progressions. *)
Lemma _isProgression_app (l1 l2 : list Z) :
  _isProgression (l1 ++ l2) = true ->
  _isProgression l1 = true /\ _isProgression l2 = true.
Proof.
  rewrite !_isProgression_spec. intros H. split.
  - destruct l1 as [|x [|y t]]; trivial.
    change ((x :: y :: t) ++ l2) with (x :: y :: (t ++ l2)) in H.
    change (x :: y :: t ++ l2) with ((x :: y :: t) ++ l2) in H.
    apply constant_gap_app in H. apply H.
  - destruct l2 as [|x [|y t]]; trivial.
    assert (G : exists g, constant_gap g (l1 ++ x :: y :: t)).
    { destruct (l1 ++ x :: y :: t) as [|a [|b u]];
        [exists 0; exact I | exists 0; exact I | exists (b - a); exact H]. }
    destruct G as (g & G). apply constant_gap_app in G. destruct G as [_ G].
    destruct G as [E G]. subst g. split; [reflexivity | exact G].
Qed.

Lemma accepts_spec (curr : list Z) (e : Z) :
  _isProgression curr = true ->
  accepts curr e = _isProgression (curr ++ [e]).
Proof.
  intros Hc. unfold accepts.
  destruct curr as [|x [|y t]]; [reflexivity | reflexivity |].
  change ((List.length (x :: y :: t) <? 2)%nat) with false.
  change (nth 1 (x :: y :: t) 0) with y. change (nth 0 (x :: y :: t) 0) with x.
  rewrite orb_false_l. apply eq_true_iff_eq.
  assert (S : _isProgression ((x :: y :: t) ++ [e]) = true <->
              constant_gap (y - x) ((x :: y :: t) ++ [e]))
    by (rewrite _isProgression_spec; reflexivity).
  rewrite Z.eqb_eq, S, constant_gap_snoc. apply _isProgression_spec in Hc.
  split.
  - intros E. split; [exact Hc | right; lia].
  - intros [_ [E|E]]; [discriminate | lia].
Qed.

(** ** [_progressions] as a left-to-right scan *)

Lemma push_at_last (done : list (list Z)) (curr : list Z) (e : Z) :
  push_at (List.length done) e (done ++ [curr]) = done ++ [curr ++ [e]].
Proof. induction done as [|d done IH]; simpl; [reflexivity | rewrite IH; reflexivity]. Qed.

Lemma nth_last_run (done : list (list Z)) (curr : list Z) :
  nth (List.length done) (done ++ [curr]) [] = curr.
Proof. rewrite app_nth2, Nat.sub_diag by lia. reflexivity. Qed.

Lemma progressions_step_eq (done : list (list Z)) (curr : list Z) (e : Z) :
  progressions_step (done ++ [curr], List.length done) e =
  if accepts curr e then (done ++ [curr ++ [e]], List.length done)
  else ((done ++ [curr]) ++ [[e]], List.length (done ++ [curr])).
Proof.
  unfold progressions_step. rewrite nth_last_run. fold (accepts curr e).
  destruct (accepts curr e); cbn [negb fst snd].
  - rewrite push_at_last. reflexivity.
  - replace (S (List.length done)) with (List.length (done ++ [curr]))
      by (rewrite length_app; simpl; lia).
    rewrite (push_at_last (done ++ [curr]) [] e). reflexivity.
Qed.

Lemma fold_progressions_step (xs : list Z) (done : list (list Z)) (curr : list Z) :
  fst (fold_left progressions_step xs (done ++ [curr], List.length done)) =
  done ++ extend curr xs.
Proof.
  revert done curr. induction xs as [|e xs IH]; intros done curr.
  - reflexivity.
  - cbn [fold_left extend]. rewrite progressions_step_eq.
    destruct (accepts curr e).
    + apply IH.
    + rewrite IH, <- app_assoc. reflexivity.
Qed.

Lemma _progressions_extend (arr : list Z) :
  _progressions arr = extend [] (sort arr).
Proof. unfold _progressions. apply (fold_progressions_step (sort arr) [] []). Qed.

Lemma extend_concat (xs curr : list Z) : List.concat (extend curr xs) = curr ++ xs.
Proof.
  revert curr. induction xs as [|e xs IH]; intros curr; simpl.
  - reflexivity.
  - destruct (accepts curr e); simpl; rewrite IH; [rewrite <- app_assoc|];
      reflexivity.
Qed.

(** The head run of [extend curr xs] starts with [curr]. *)
Lemma extend_head (xs curr : list Z) :
  exists taken rest, extend curr xs = (curr ++ taken) :: rest.
Proof.
  revert curr. induction xs as [|e xs IH]; intros curr; simpl.
  - exists [], []. rewrite app_nil_r. reflexivity.
  - destruct (accepts curr e).
    + destruct (IH (curr ++ [e])) as (tk & rest & ->).
      exists (e :: tk), rest. rewrite <- app_assoc. reflexivity.
    + exists [], (extend [e] xs). rewrite app_nil_r. reflexivity.
Qed.

Lemma extend_greedy (xs curr : list Z) :
  _isProgression curr = true -> curr <> [] -> greedy_runs (extend curr xs).
Proof.
  revert curr. induction xs as [|e xs IH]; intros curr Hc Hne; simpl.
  - constructor; assumption.
  - rewrite (accepts_spec curr e Hc).
    destruct (_isProgression (curr ++ [e])) eqn:E.
    + apply IH; [exact E | destruct curr; discriminate].
    + assert (G : greedy_runs (extend [e] xs)) by (apply IH; [reflexivity | discriminate]).
      destruct (extend_head xs [e]) as (tk & rest & Heq). rewrite Heq in *.
      simpl. constructor; assumption.
Qed.

Lemma _progressions_greedy (arr : list Z) :
  arr <> [] -> greedy_runs (_progressions arr).
Proof.
  intros Hne. rewrite _progressions_extend.
  destruct (sort arr) as [|x xs] eqn:E.
  - exfalso. apply Hne. apply Permutation_nil. rewrite <- E. symmetry. apply sort_perm.
  - simpl. apply extend_greedy; [reflexivity | discriminate].
Qed.

Lemma _progressions_concat (arr : list Z) : List.concat (_progressions arr) = sort arr.
Proof. rewrite _progressions_extend. apply extend_concat. Qed.

Lemma greedy_runs_Forall (G : list (list Z)) :
  greedy_runs G -> Forall (fun r => _isProgression r = true /\ r <> []) G.
Proof. induction 1; constructor; auto. Qed.

(** ** Greedy partitions are minimal and unique *)

Lemma greedy_blocks_extension (r : list Z) (e : Z) (m q : list Z) :
  _isProgression (r ++ [e]) = false -> q = r ++ e :: m ->
  _isProgression q = true -> False.
Proof.
  intros Hno -> Hq.
  replace (r ++ e :: m) with ((r ++ [e]) ++ m) in Hq
    by (rewrite <- app_assoc; reflexivity).
  apply _isProgression_app in Hq. destruct Hq as [Hq _]. congruence.
Qed.

(** Any partition [P] of a list ending with [concat G] into progressions
    has at least as many runs as the greedy [G]. *)
Lemma greedy_minimal (P : list (list Z)) :
  forall (G : list (list Z)) (pre : list Z),
    greedy_runs G ->
    Forall (fun r => _isProgression r = true) P ->
    List.concat P = pre ++ List.concat G ->
    (List.length G <= List.length P)%nat.
Proof.
  induction P as [|p P IH]; intros G pre HG HP Heq.
  - exfalso. simpl in Heq. symmetry in Heq. apply app_eq_nil in Heq.
    destruct Heq as [_ Heq]. destruct HG; simpl in Heq;
      apply app_eq_nil in Heq; destruct Heq; contradiction.
  - inversion HP as [|? ? Hp HP']; subst. simpl in Heq.
    apply app_eq_app in Heq. destruct Heq as (m & [[-> Hm] | [-> Hm]]).
    + (* the run [p] ends inside [concat G] *)
      apply _isProgression_app in Hp. destruct Hp as [_ Hm'].
      inversion HG as [r Hr Hne | r e r' rs Hr Hne Hno HG']; subst.
      * simpl. lia.
      * simpl in Hm.
        apply app_eq_app in Hm. destruct Hm as (k & [[-> Hk] | [-> Hk]]).
        -- assert (L : (List.length ((e :: r') :: rs) <= List.length P)%nat)
             by (apply (IH _ k HG' HP'); simpl; exact Hk).
           simpl in L. simpl. lia.
        -- destruct k as [|e' k].
           ++ assert (L : (List.length ((e :: r') :: rs) <= List.length P)%nat)
                by (apply (IH _ [] HG' HP'); simpl; simpl in Hk; congruence).
              simpl in L. simpl. lia.
           ++ injection Hk as <- Hk. exfalso.
              eapply greedy_blocks_extension; [exact Hno | reflexivity | exact Hm'].
    + (* the run [p] ends before [concat G] starts *)
      specialize (IH G m HG HP' Hm). simpl. lia.
Qed.

Lemma greedy_unique (G : list (list Z)) :
  greedy_runs G ->
  forall G', greedy_runs G' -> List.concat G = List.concat G' -> G = G'.
Proof.
  induction 1 as [r Hr Hne | r e r' rs Hr Hne Hno HG IH];
    intros G' HG' Heq;
    inversion HG' as [r1 Hr1 Hne1 | r1 e1 r1' rs1 Hr1 Hne1 Hno1 HG1]; subst;
    simpl in Heq; rewrite ?app_nil_r, <- ?app_assoc in Heq; simpl in Heq.
  - congruence.
  - exfalso. eapply greedy_blocks_extension; [exact Hno1 | exact Heq | exact Hr].
  - exfalso. eapply greedy_blocks_extension; [exact Hno | symmetry; exact Heq | exact Hr1].
  - apply app_eq_app in Heq. destruct Heq as (m & [[-> Hm] | [-> Hm]]).
    + destruct m as [|x m].
      * rewrite app_nil_r. f_equal. apply IH; [assumption|].
        simpl. simpl in Hm. congruence.
      * injection Hm as <- Hm. exfalso.
        eapply greedy_blocks_extension; [exact Hno1 | reflexivity | exact Hr].
    + destruct m as [|x m].
      * rewrite app_nil_r. f_equal. apply IH; [assumption|].
        simpl. simpl in Hm. congruence.
      * injection Hm as <- Hm. exfalso.
        eapply greedy_blocks_extension; [exact Hno | reflexivity | exact Hr1].
Qed.

(** ** [chunks] *)

Lemma chunks_loop_eq (e : bool) (size : Z) (arr rest : list Z) (i : nat)
    (res : list SequenceT) (chunk : list Z) :
  exists open,
    chunks_loop e size arr rest i (res, chunk) =
    Ok (res ++ map wrap (chunk_lists e size arr rest i chunk), open).
Proof.
  revert i res chunk. induction rest as [|f rest IH]; intros i res chunk.
  - exists chunk. simpl. rewrite app_nil_r. reflexivity.
  - cbn [chunks_loop chunk_lists]. rewrite chunks_step_eq.
    destruct (closes e size arr (chunk ++ [f]) i); cbn [bind].
    + fold (wrap (chunk ++ [f])).
      destruct (IH (S i) (res ++ [wrap (chunk ++ [f])]) []) as (open & ->).
      exists open. rewrite <- app_assoc. reflexivity.
    + apply IH.
Qed.

(** [chunks] never throws. *)
Lemma chunks_eq (e : bool) (s : SequenceT) :
  chunks e s =
  Ok (map wrap (chunk_lists e (_chunkSize s) (_frames s) (_frames s) 0 [])).
Proof.
  unfold chunks.
  destruct (chunks_loop_eq e (_chunkSize s) (_frames s) (_frames s) 0 [] [])
    as (open & ->).
  reflexivity.
Qed.

Section ChunkLists.

Variables (e : bool) (size : Z) (arr : list Z).

Lemma closes_last (chunk : list Z) (i : nat) :
  S i = List.length arr -> closes e size arr chunk i = true.
Proof.
  intros Hi. unfold closes.
  replace (Z.of_nat i =? Z.of_nat (List.length arr) - 1) with true
    by (symmetry; apply Z.eqb_eq; lia).
  rewrite orb_true_r. reflexivity.
Qed.

Lemma chunk_lists_head (rest : list Z) (i : nat) (chunk : list Z) (f : Z)
    (rest' : list Z) :
  rest = f :: rest' -> (i + List.length rest = List.length arr)%nat ->
  exists taken tl,
    chunk_lists e size arr rest i chunk = (chunk ++ f :: taken) :: tl.
Proof.
  revert i chunk f rest'.
  induction rest as [|g rest IH]; intros i chunk f rest' Heq Hlen;
    [discriminate|].
  injection Heq as -> ->. cbn [chunk_lists].
  destruct (closes e size arr (chunk ++ [f]) i) eqn:Hc.
  - exists [], (chunk_lists e size arr rest' (S i) []). reflexivity.
  - destruct rest' as [|f' rest''].
    + rewrite closes_last in Hc; [discriminate | simpl in Hlen; lia].
    + destruct (IH (S i) (chunk ++ [f]) f' rest'' eq_refl) as (tk & tl & ->);
        [simpl in *; lia|].
      exists (f' :: tk), tl. rewrite <- app_assoc. reflexivity.
Qed.

Lemma chunk_lists_concat (rest : list Z) (i : nat) (chunk : list Z) :
  (i + List.length rest = List.length arr)%nat -> (rest = [] -> chunk = []) ->
  List.concat (chunk_lists e size arr rest i chunk) = chunk ++ rest.
Proof.
  revert i chunk. induction rest as [|f rest IH]; intros i chunk Hlen Hnil.
  - rewrite Hnil by reflexivity. reflexivity.
  - cbn [chunk_lists].
    destruct (closes e size arr (chunk ++ [f]) i) eqn:Hc.
    + simpl. rewrite IH; [|simpl in *; lia | reflexivity].
      rewrite <- app_assoc. reflexivity.
    + rewrite IH; [rewrite <- app_assoc; reflexivity | simpl in *; lia |].
      intros ->. rewrite closes_last in Hc; [discriminate | simpl in Hlen; lia].
Qed.

Lemma chunk_lists_chunked (pre rest : list Z) (chunk : list Z) :
  arr = pre ++ rest -> Z.of_nat (List.length chunk) < size ->
  chunked e size (chunk_lists e size arr rest (List.length pre) chunk).
Proof.
  revert pre chunk. induction rest as [|f rest IH]; intros pre chunk Harr Hlt.
  - constructor.
  - cbn [chunk_lists].
    assert (Hlen' : Z.of_nat (List.length (chunk ++ [f])) <= size)
      by (rewrite length_app; simpl; lia).
    assert (Harr' : arr = (pre ++ [f]) ++ rest)
      by (rewrite <- app_assoc; exact Harr).
    assert (HS : S (List.length pre) = List.length (pre ++ [f]))
      by (rewrite length_app; simpl; lia).
    destruct (closes e size arr (chunk ++ [f]) (List.length pre)) eqn:Hc.
    + assert (Hne : chunk ++ [f] <> []) by (destruct chunk; discriminate).
      assert (IH0 := IH (pre ++ [f]) [] Harr').
      rewrite <- HS in IH0. simpl in IH0.
      destruct rest as [|f' rest'].
      * simpl. constructor; assumption.
      * destruct (chunk_lists_head (f' :: rest') (S (List.length pre)) [] f' rest'
                    eq_refl) as (tk & tl & Hhd).
        { rewrite Harr, !length_app. simpl. lia. }
        rewrite Hhd in *. simpl. constructor; try assumption; [|apply IH0; lia].
        unfold closes in Hc. apply orb_true_iff in Hc.
        destruct Hc as [Hc|Hc]; [apply orb_true_iff in Hc; destruct Hc as [Hc|Hc]|].
        -- left. apply Z.eqb_eq, Hc.
        -- apply Z.eqb_eq in Hc. rewrite Harr, length_app in Hc. simpl in Hc. lia.
        -- right. apply andb_true_iff in Hc. destruct Hc as [He Hp].
           split; [exact He|]. apply negb_true_iff in Hp.
           replace (nth (List.length pre + 1) arr 0) with f' in Hp; [exact Hp|].
           rewrite Harr, app_nth2 by lia.
           replace (List.length pre + 1 - List.length pre)%nat with 1%nat by lia.
           reflexivity.
    + rewrite HS. apply IH; [exact Harr'|].
      unfold closes in Hc. apply orb_false_iff in Hc. destruct Hc as [Hc _].
      apply orb_false_iff in Hc. destruct Hc as [Hc _].
      apply Z.eqb_neq in Hc. lia.
Qed.

End ChunkLists.

Lemma chunked_Forall (e : bool) (size : Z) (L : list (list Z)) :
  chunked e size L ->
  Forall (fun c => c <> [] /\ Z.of_nat (List.length c) <= size) L.
Proof. induction 1; constructor; auto. Qed.

(** The neighbour condition of [chunked], by position. *)
Lemma chunked_neighbours (e : bool) (size : Z) (L : list (list Z)) :
  chunked e size L ->
  forall pre c c' post,
    L = pre ++ c :: c' :: post ->
    Z.of_nat (List.length c) < size ->
    e = true /\ c' <> [] /\ _isProgression (c ++ [hd 0 c']) = false.
Proof.
  induction 1 as [|c0 Hne Hlen|c0 f c1 cs Hne Hlen Hor Hch IH];
    intros pre c c' post Heq Hlt.
  - destruct pre; discriminate.
  - destruct pre as [|? [|? ?]]; discriminate.
  - destruct pre as [|p pre].
    + injection Heq as <- <- <-. simpl.
      destruct Hor as [Hfull|[He Hp]]; [lia|].
      repeat split; [assumption | discriminate | assumption].
    + injection Heq as <- Heq. eapply IH; eassumption.
Qed.

Lemma wrap_frames (L : list (list Z)) :
  ascending (List.concat L) -> map frames (map wrap L) = L.
Proof.
  induction L as [|c L IH]; simpl; intros H; [reflexivity|].
  apply ascending_app in H. destruct H as (Hc & HL & _).
  unfold frames at 1. simpl. rewrite sort_Set_id by assumption.
  f_equal. apply IH, HL.
Qed.

(** ** Strings *)

Arguments is_digit : simpl never.
Arguments is_digit19 : simpl never.
Arguments is_sep : simpl never.
Arguments digit_char : simpl never.
Arguments digit_val : simpl never.

Lemma sapp_nil_r (s : string) : (s ++ "")%string = s.
Proof. induction s as [|c s IH]; simpl; [reflexivity | rewrite IH; reflexivity]. Qed.

Lemma sapp_assoc (a b c : string) : ((a ++ b) ++ c = a ++ (b ++ c))%string.
Proof. induction a as [|x a IH]; simpl; [reflexivity | rewrite IH; reflexivity]. Qed.

Lemma all_chars_app (p : ascii -> bool) (a b : string) :
  all_chars p (a ++ b) = all_chars p a && all_chars p b.
Proof.
  induction a as [|c a IH]; simpl; [reflexivity|].
  rewrite IH, andb_assoc. reflexivity.
Qed.

Lemma all_chars_impl (p q : ascii -> bool) (s : string) :
  (forall c, p c = true -> q c = true) ->
  all_chars p s = true -> all_chars q s = true.
Proof.
  intros Hpq. induction s as [|c s IH]; simpl; [reflexivity|].
  rewrite !andb_true_iff. intros [Hc Hs]. auto.
Qed.

(** *** The scanner decides the grammar *)

Lemma span_digits_app (d r : string) :
  all_chars is_digit d = true -> head_is is_digit r = false ->
  span_digits (d ++ r) = (d, r).
Proof.
  intros Hd Hr. induction d as [|c d IH]; simpl in *.
  - destruct r as [|c r]; [reflexivity|]. simpl in *. rewrite Hr. reflexivity.
  - apply andb_true_iff in Hd. destruct Hd as [Hc Hd].
    rewrite Hc, (IH Hd). reflexivity.
Qed.

Lemma span_digits_inv (s d r : string) :
  span_digits s = (d, r) ->
  s = (d ++ r)%string /\ all_chars is_digit d = true /\ head_is is_digit r = false.
Proof.
  revert d r. induction s as [|c s IH]; intros d r; simpl.
  - intros [= <- <-]. auto.
  - destruct (is_digit c) eqn:Hc.
    + destruct (span_digits s) as [d' r'] eqn:E. intros [= <- <-].
      destruct (IH d' r' eq_refl) as (-> & Hd & Hr).
      cbn [append all_chars]. rewrite Hc. auto.
    + intros [= <- <-]. simpl. auto.
Qed.

Lemma scan_digits1_app (d r : string) :
  grammar_DIGITS d -> head_is is_digit r = false ->
  scan_digits1 (d ++ r) = Some (d, r).
Proof.
  intros [Hne Hd] Hr. unfold scan_digits1. rewrite span_digits_app by assumption.
  destruct d; [contradiction | reflexivity].
Qed.

Lemma scan_digits1_inv (s d r : string) :
  scan_digits1 s = Some (d, r) ->
  s = (d ++ r)%string /\ grammar_DIGITS d /\ head_is is_digit r = false.
Proof.
  unfold scan_digits1. destruct (span_digits s) as [d' r'] eqn:E.
  destruct (span_digits_inv _ _ _ E) as (-> & Hd & Hr).
  destruct d' as [|c d']; [discriminate|]. intros [= <- <-].
  repeat split; [discriminate | assumption | assumption].
Qed.

Lemma digit_not_minus (c : ascii) : is_digit c = true -> Ascii.eqb c "-"%char = false.
Proof. intros H. destruct (Ascii.eqb_spec c "-"%char); [subst; discriminate | reflexivity]. Qed.

Lemma digit19_digit (c : ascii) : is_digit19 c = true -> is_digit c = true.
Proof.
  unfold is_digit19, is_digit. rewrite !andb_true_iff, !Nat.leb_le. lia.
Qed.

Lemma scan_int_cons (c : ascii) (s : string) :
  scan_int (String c s) =
  if Ascii.eqb c "-"%char
  then match scan_digits1 s with
       | Some (d, r) => Some (String c d, r)
       | None => None
       end
  else scan_digits1 (String c s).
Proof. reflexivity. Qed.

Lemma scan_int_app (a r : string) :
  grammar_INT a -> head_is is_digit r = false -> scan_int (a ++ r) = Some (a, r).
Proof.
  intros [d Hd | d Hd] Hr.
  - destruct d as [|c d]; [destruct Hd; contradiction|].
    assert (Hc : is_digit c = true)
      by (destruct Hd as [_ Hd]; simpl in Hd; apply andb_true_iff in Hd; tauto).
    cbn [append]. rewrite scan_int_cons.
    rewrite (digit_not_minus c Hc).
    apply (scan_digits1_app (String c d) r); assumption.
  - simpl. rewrite scan_digits1_app by assumption. reflexivity.
Qed.

Lemma scan_int_inv (s a r : string) :
  scan_int s = Some (a, r) ->
  s = (a ++ r)%string /\ grammar_INT a /\ head_is is_digit r = false.
Proof.
  destruct s as [|c s]; [discriminate|].
  unfold scan_int. destruct (Ascii.eqb_spec c "-"%char) as [->|Hc].
  - destruct (scan_digits1 s) as [[d r']|] eqn:E; [|discriminate].
    intros [= <- <-]. destruct (scan_digits1_inv _ _ _ E) as (-> & Hd & Hr).
    repeat split; [constructor; assumption | assumption].
  - intros E. destruct (scan_digits1_inv _ _ _ E) as (Hs & Hd & Hr).
    repeat split; [assumption | constructor; assumption | assumption].
Qed.

Lemma scan_step_app (g r : string) :
  grammar_STEP g -> head_is is_digit r = false -> scan_step (g ++ r) = Some (g, r).
Proof.
  intros [c d Hc Hd] Hr. simpl. rewrite Hc, span_digits_app by assumption.
  reflexivity.
Qed.

Lemma scan_step_inv (s g r : string) :
  scan_step s = Some (g, r) ->
  s = (g ++ r)%string /\ grammar_STEP g /\ head_is is_digit r = false.
Proof.
  destruct s as [|c s]; [discriminate|]. simpl.
  destruct (is_digit19 c) eqn:Hc; [|discriminate].
  destruct (span_digits s) as [d r'] eqn:E. intros [= <- <-].
  destruct (span_digits_inv _ _ _ E) as (-> & Hd & Hr).
  split; [reflexivity | split; [constructor; assumption | assumption]].
Qed.

(** [match_token] accepts exactly the tokens of the grammar, with the groups
    the grammar delimits. *)
Lemma match_token_grammar (tok : string) (m : groups) :
  match_token tok = Some m <-> grammar_token tok m.
Proof.
  split.
  - unfold match_token.
    destruct (scan_int tok) as [[a r1]|] eqn:E1; [|discriminate].
    destruct (scan_int_inv _ _ _ E1) as (-> & Ha & _).
    destruct r1 as [|c1 r2].
    + intros [= <-]. rewrite sapp_nil_r. constructor. assumption.
    + destruct (Ascii.eqb_spec c1 "-"%char) as [->|]; [|discriminate].
      cbn [negb].
      destruct (scan_int r2) as [[b r3]|] eqn:E2; [|discriminate].
      destruct (scan_int_inv _ _ _ E2) as (-> & Hb & _).
      destruct r3 as [|c3 r4].
      * intros [= <-]. rewrite sapp_nil_r. constructor; assumption.
      * destruct (Ascii.eqb_spec c3 "x"%char) as [->|]; [|discriminate].
        cbn [negb].
        destruct (scan_step r4) as [[g [|? ?]]|] eqn:E3; try discriminate.
        destruct (scan_step_inv _ _ _ E3) as (-> & Hg & _).
        intros [= <-]. rewrite sapp_nil_r. constructor; assumption.
  - intros [a Ha | a b Ha Hb | a b g Ha Hb Hg]; unfold match_token.
    + rewrite <- (sapp_nil_r a) at 1. rewrite scan_int_app by auto. reflexivity.
    + rewrite scan_int_app by auto. cbn [append negb Ascii.eqb Bool.eqb].
      rewrite <- (sapp_nil_r b) at 1. rewrite scan_int_app by auto. reflexivity.
    + rewrite scan_int_app by auto. cbn [append negb Ascii.eqb Bool.eqb].
      rewrite scan_int_app by auto. cbn [append negb Ascii.eqb Bool.eqb].
      rewrite <- (sapp_nil_r g) at 1. rewrite scan_step_app by auto. reflexivity.
Qed.

Lemma match_token_None (tok : string) :
  match_token tok = None <-> ~ exists m, grammar_token tok m.
Proof.
  split.
  - intros H (m & Hm). apply match_token_grammar in Hm. congruence.
  - intros H. destruct (match_token tok) as [m|] eqn:E; [|reflexivity].
    exfalso. apply H. exists m. apply match_token_grammar, E.
Qed.

(** *** Decimal rendering and [Number] *)

Ltac digit_cases d :=
  let H := fresh in
  assert (H : d = 0 \/ d = 1 \/ d = 2 \/ d = 3 \/ d = 4 \/ d = 5 \/ d = 6
              \/ d = 7 \/ d = 8 \/ d = 9) by lia;
  repeat (destruct H as [H|H]; [rewrite H; reflexivity|]);
  rewrite H; reflexivity.

Lemma digit_char_digit (d : Z) : 0 <= d < 10 -> is_digit (digit_char d) = true.
Proof. intros Hd. digit_cases d. Qed.

Lemma digit_char_digit19 (d : Z) : 1 <= d < 10 -> is_digit19 (digit_char d) = true.
Proof. intros Hd. assert (d <> 0) by lia. 
  assert (H0 : d = 1 \/ d = 2 \/ d = 3 \/ d = 4 \/ d = 5 \/ d = 6
              \/ d = 7 \/ d = 8 \/ d = 9) by lia.
  repeat (destruct H0 as [H0|H0]; [rewrite H0; reflexivity|]).
  rewrite H0; reflexivity.
Qed.

Lemma digit_val_char (d : Z) : 0 <= d < 10 -> digit_val (digit_char d) = d.
Proof.
  intros Hd.
  assert (H : d = 0 \/ d = 1 \/ d = 2 \/ d = 3 \/ d = 4 \/ d = 5 \/ d = 6
              \/ d = 7 \/ d = 8 \/ d = 9) by lia.
  repeat (destruct H as [H|H]; [rewrite H; reflexivity|]).
  rewrite H; reflexivity.
Qed.

Lemma digits_str_acc (fuel : nat) (n : Z) (acc : string) :
  digits_str fuel n acc = (digits_str fuel n "" ++ acc)%string.
Proof.
  revert n acc. induction fuel as [|f IH]; intros n acc; cbn [digits_str];
    [reflexivity|].
  destruct (n <? 10); [reflexivity|].
  rewrite (IH _ (String _ acc)), (IH _ (String _ "")), sapp_assoc. reflexivity.
Qed.

Lemma digits_str_digits (fuel : nat) (n : Z) (acc : string) :
  0 <= n -> all_chars is_digit acc = true ->
  all_chars is_digit (digits_str fuel n acc) = true.
Proof.
  revert n acc. induction fuel as [|f IH]; intros n acc Hn Hacc; cbn [digits_str];
    [assumption|].
  assert (Hd : all_chars is_digit (String (digit_char (n mod 10)) acc) = true).
  { cbn [all_chars]. rewrite Hacc, digit_char_digit; [reflexivity|].
    apply Z.mod_pos_bound. lia. }
  destruct (n <? 10); [exact Hd|].
  apply IH; [apply Z.div_pos; lia | exact Hd].
Qed.

Lemma digits_str_head (fuel : nat) (n : Z) (acc : string) :
  0 <= n -> head_is is_digit acc = true \/ (0 < fuel)%nat ->
  head_is is_digit (digits_str fuel n acc) = true.
Proof.
  revert n acc. induction fuel as [|f IH]; intros n acc Hn Hor; cbn [digits_str].
  - destruct Hor; [assumption | lia].
  - assert (Hd : head_is is_digit (String (digit_char (n mod 10)) acc) = true).
    { cbn [head_is]. apply digit_char_digit, Z.mod_pos_bound. lia. }
    destruct (n <? 10); [exact Hd|].
    apply IH; [apply Z.div_pos; lia | left; exact Hd].
Qed.

Lemma digits_str_head19 (fuel : nat) (n : Z) (acc : string) :
  0 < n < 2 ^ Z.of_nat fuel ->
  head_is is_digit19 (digits_str fuel n acc) = true.
Proof.
  revert n acc. induction fuel as [|f IH]; intros n acc Hn.
  - simpl in Hn. lia.
  - cbn [digits_str]. destruct (Z.ltb_spec n 10) as [Hlt|Hge].
    + cbn [head_is]. apply digit_char_digit19. rewrite Z.mod_small; lia.
    + apply IH. rewrite Nat2Z.inj_succ, Z.pow_succ_r in Hn by lia. split.
      * apply Z.div_str_pos. lia.
      * apply Z.div_lt_upper_bound; lia.
Qed.

Lemma digits_str_value (fuel : nat) (n : Z) (acc : string) :
  0 <= n < 2 ^ Z.of_nat fuel ->
  digits_value (digits_str fuel n acc) 0 = digits_value acc n.
Proof.
  revert n acc. induction fuel as [|f IH]; intros n acc Hn.
  - simpl in Hn. assert (n = 0) by lia. subst. reflexivity.
  - cbn [digits_str]. destruct (Z.ltb_spec n 10) as [Hlt|Hge].
    + cbn [digits_value]. rewrite Z.mod_small, digit_val_char by lia. reflexivity.
    + rewrite IH.
      * cbn [digits_value]. rewrite digit_val_char by (apply Z.mod_pos_bound; lia).
        f_equal. rewrite (Z.div_mod n 10) at 3 by lia. reflexivity.
      * rewrite Nat2Z.inj_succ, Z.pow_succ_r in Hn by lia. split.
        -- apply Z.div_pos; lia.
        -- apply Z.div_lt_upper_bound; lia.
Qed.

Lemma nat_str_fuel (n : Z) :
  0 <= n -> 0 <= n < 2 ^ Z.of_nat (S (Z.to_nat (Z.log2 n))).
Proof.
  intros Hn. split; [assumption|].
  rewrite Nat2Z.inj_succ, Z2Nat.id by apply Z.log2_nonneg.
  destruct (Z.eq_dec n 0) as [->|Hnz]; [reflexivity|].
  apply Z.log2_spec. lia.
Qed.

Lemma nat_str_DIGITS (n : Z) : 0 <= n -> grammar_DIGITS (nat_str n).
Proof.
  intros Hn. unfold nat_str. split.
  - intros E.
    assert (H : head_is is_digit (digits_str (S (Z.to_nat (Z.log2 n))) n "") = true)
      by (apply digits_str_head; [assumption | right; lia]).
    rewrite E in H. discriminate.
  - apply digits_str_digits; [assumption | reflexivity].
Qed.

Lemma nat_str_value (n : Z) : 0 <= n -> digits_value (nat_str n) 0 = n.
Proof.
  intros Hn. unfold nat_str. rewrite digits_str_value by (apply nat_str_fuel, Hn).
  reflexivity.
Qed.

Lemma num_str_INT (z : Z) : grammar_INT (num_str z).
Proof.
  unfold num_str. destruct (Z.ltb_spec z 0).
  - apply INT_minus, nat_str_DIGITS. lia.
  - apply INT_plain, nat_str_DIGITS. lia.
Qed.

Lemma num_str_STEP (g : Z) : 1 <= g -> grammar_STEP (num_str g).
Proof.
  intros Hg. unfold num_str. destruct (Z.ltb_spec g 0); [lia|].
  assert (H19 : head_is is_digit19 (nat_str g) = true).
  { unfold nat_str. apply digits_str_head19.
    destruct (nat_str_fuel g) as [_ Hlt]; lia. }
  destruct (nat_str_DIGITS g) as [_ Hd]; [lia|].
  destruct (nat_str g) as [|c d]; [discriminate|].
  simpl in H19, Hd. apply andb_true_iff in Hd. constructor; tauto.
Qed.

Lemma Number_of_num_str (z : Z) : Number_of_string (num_str z) = z.
Proof.
  unfold num_str. destruct (Z.ltb_spec z 0).
  - simpl. rewrite nat_str_value by lia. lia.
  - destruct (nat_str_DIGITS z) as [Hne Hd]; [assumption|].
    assert (Hv := nat_str_value z ltac:(assumption)).
    destruct (nat_str z) as [|c d]; [contradiction|].
    simpl in Hd. apply andb_true_iff in Hd. destruct Hd as [Hc _].
    unfold Number_of_string. rewrite (digit_not_minus c Hc). exact Hv.
Qed.

(** *** [split] after [join] *)

Lemma split_go_nonempty (b : bool) (s : string) : split_go b s <> [].
Proof.
  revert b. induction s as [|c s IH]; intros b; simpl; [discriminate|].
  destruct (is_sep c).
  - destruct b; [apply IH | discriminate].
  - destruct (split_go false s); discriminate.
Qed.

Lemma split_go_piece (tok r : string) (b : bool) :
  all_chars not_sep tok = true -> tok <> "" ->
  split_go b (tok ++ r) =
  match split_go false r with
  | piece :: pieces => (tok ++ piece)%string :: pieces
  | [] => [tok]
  end.
Proof.
  revert b. induction tok as [|c tok IH]; intros b Hall Hne; [contradiction|].
  simpl in Hall. apply andb_true_iff in Hall. destruct Hall as [Hc Hall].
  unfold not_sep in Hc. apply negb_true_iff in Hc.
  cbn [append split_go]. rewrite Hc.
  destruct tok as [|c' tok].
  - simpl. destruct (split_go false r); reflexivity.
  - rewrite (IH false Hall) by discriminate.
    destruct (split_go false r); reflexivity.
Qed.

Lemma split_join (toks : list string) :
  toks <> [] ->
  Forall (fun tok => all_chars not_sep tok = true /\ tok <> "") toks ->
  split_spec (join "," toks) = toks.
Proof.
  unfold split_spec. intros Hne Hall.
  induction Hall as [|tok toks [Htok Hnet] Hall IH]; [contradiction|].
  destruct toks as [|tok' toks].
  - simpl. rewrite <- (sapp_nil_r tok) at 1.
    rewrite split_go_piece by assumption. simpl. rewrite sapp_nil_r. reflexivity.
  - change (join "," (tok :: tok' :: toks))
      with (tok ++ String ","%char (join "," (tok' :: toks)))%string.
    rewrite split_go_piece by assumption.
    cbn [split_go]. change (is_sep ","%char) with true. cbn iota.
    assert (IH' := IH ltac:(discriminate)).
    inversion Hall as [|? ? [Htok' Hne'] _]; subst.
    assert (E : split_go true (join "," (tok' :: toks))
                = split_go false (join "," (tok' :: toks))).
    { destruct toks as [|tok'' toks].
      - simpl. rewrite <- (sapp_nil_r tok').
        rewrite !split_go_piece by assumption. reflexivity.
      - change (join "," (tok' :: tok'' :: toks))
          with (tok' ++ String ","%char (join "," (tok'' :: toks)))%string.
        rewrite !split_go_piece by assumption. reflexivity. }
    rewrite E, IH', sapp_nil_r. reflexivity.
Qed.

Lemma grammar_token_chars (tok : string) (m : groups) :
  grammar_token tok m -> all_chars not_sep tok = true /\ tok <> "".
Proof.
  assert (D : forall c, is_digit c = true -> not_sep c = true).
  { intros c Hc. unfold not_sep, is_sep.
    destruct (Ascii.eqb_spec c ","%char) as [->|_]; [discriminate Hc|].
    rewrite orb_false_r. apply negb_true_iff.
    unfold is_digit in Hc. unfold is_space.
    apply andb_true_iff in Hc. rewrite !Nat.leb_le in Hc.
    rewrite !orb_false_iff, andb_false_iff, !Nat.leb_gt, !Nat.eqb_neq. lia. }
  assert (I : forall a, grammar_INT a -> all_chars not_sep a = true /\ a <> "").
  { intros a [d [Hne Hd] | d [Hne Hd]].
    - split; [eapply all_chars_impl; eassumption | assumption].
    - split; [|discriminate]. simpl. eapply all_chars_impl; eassumption. }
  assert (S : forall g, grammar_STEP g -> all_chars not_sep g = true).
  { intros g [c d Hc Hd]. simpl. rewrite (D c (digit19_digit c Hc)).
    eapply all_chars_impl; eassumption. }
  intros [a Ha | a b Ha Hb | a b g Ha Hb Hg].
  - apply I, Ha.
  - destruct (I a Ha) as [H1 H2], (I b Hb) as [H3 _]. split.
    + rewrite !all_chars_app, H1, H3. reflexivity.
    + destruct a; [contradiction | discriminate].
  - destruct (I a Ha) as [H1 H2], (I b Hb) as [H3 _]. split.
    + rewrite !all_chars_app, H1, H3, (S g Hg). reflexivity.
    + destruct a; [contradiction | discriminate].
Qed.

(** ** Serialising a run and reading it back *)

Lemma constant_gap_last_ge (g : Z) (r : list Z) (a : Z) :
  constant_gap g (a :: r) -> 0 <= g -> a <= last (a :: r) 0.
Proof.
  revert a. induction r as [|y r IH]; intros a Hc Hg.
  - simpl. lia.
  - destruct Hc as [Hy Hc]. specialize (IH y Hc Hg).
    change (last (a :: y :: r) 0) with (last (y :: r) 0). lia.
Qed.

Lemma range_loop_constant_gap (g : Z) (r : list Z) :
  forall (a : Z) (fuel : nat),
    constant_gap g (a :: r) -> 1 <= g ->
    last (a :: r) 0 - a + 1 <= Z.of_nat fuel ->
    range_loop fuel a (last (a :: r) 0) g = a :: r.
Proof.
  induction r as [|y r IH]; intros a fuel Hc Hg Hfuel.
  - simpl in *. destruct fuel as [|f]; [lia|]. simpl.
    rewrite Z.leb_refl. f_equal.
    destruct f; simpl; [reflexivity|].
    destruct (Z.leb_spec (a + g) a); [lia | reflexivity].
  - assert (Hge := constant_gap_last_ge g r y (proj2 Hc) ltac:(lia)).
    destruct Hc as [Hy Hc].
    change (last (a :: y :: r) 0) with (last (y :: r) 0) in *.
    destruct fuel as [|f]; [lia|]. cbn [range_loop].
    destruct (Z.leb_spec a (last (y :: r) 0)); [|lia].
    f_equal. replace (a + g) with y by lia. apply IH; [assumption | lia | lia].
Qed.

Lemma spec_of_progression_token (p : list Z) :
  run p ->
  exists m,
    grammar_token (spec_of_progression p) m /\
    _range (g_first m) (g_last m) (g_step m) = p.
Proof.
  intros (Hne & Hp & Hasc).
  destruct p as [|a [|b t]]; [contradiction | |].
  - exists {| g_first := num_str a; g_last := None; g_step := None |}.
    split; [apply token_first, num_str_INT|].
    rewrite _range_unfold. cbn [g_first g_last g_step].
    unfold Math_trunc, Numeric_string. rewrite Number_of_num_str.
    rewrite Z.min_id, Z.max_id.
    apply (range_loop_constant_gap 1 [] a); simpl; [exact I | lia | lia].
  - assert (Hgap : 1 <= b - a).
    { inversion Hasc as [|? ? _ Hall]; subst. inversion Hall; subst. lia. }
    assert (Hc : constant_gap (b - a) (a :: b :: t))
      by (apply _isProgression_spec in Hp; exact Hp).
    assert (Hlast := constant_gap_last_ge (b - a) (b :: t) a Hc ltac:(lia)).
    assert (R : range_loop (Z.to_nat (last (a :: b :: t) 0 - a + 1)) a
                  (last (a :: b :: t) 0) (b - a) = a :: b :: t)
      by (apply range_loop_constant_gap; [assumption | lia | lia]).
    unfold spec_of_progression.
    change (List.length (a :: b :: t) =? 1)%nat with false.
    change (nth 1 (a :: b :: t) 0) with b. cbv iota.
    destruct (Z.eqb_spec (b - a) 1) as [E|E].
    + exists {| g_first := num_str a; g_last := Some (num_str (last (a :: b :: t) 0));
                g_step := None |}.
      split; [apply token_last; apply num_str_INT|].
      rewrite _range_unfold. cbn [g_first g_last g_step].
      unfold Math_trunc, Numeric_string. rewrite !Number_of_num_str.
      rewrite Z.min_l, Z.max_r by lia. rewrite E in R. exact R.
    + exists {| g_first := num_str a; g_last := Some (num_str (last (a :: b :: t) 0));
                g_step := Some (num_str (b - a)) |}.
      split; [apply token_step; [apply num_str_INT | apply num_str_INT
                                 | apply num_str_STEP; lia]|].
      rewrite _range_unfold. cbn [g_first g_last g_step].
      unfold Math_trunc, Numeric_string. rewrite !Number_of_num_str.
      rewrite Z.min_l, Z.max_r, (Z.max_r 1) by lia. exact R.
Qed.

Lemma reduce_runs (G : list (list Z)) (accum : list Z) :
  Forall run G ->
  reduce flatten_token (map spec_of_progression G) accum
  = Ok (accum ++ List.concat G).
Proof.
  intros H. revert accum. induction H as [|p G Hp HG IH]; intros accum; simpl.
  - rewrite app_nil_r. reflexivity.
  - destruct (spec_of_progression_token p Hp) as (m & Hm & Hr).
    unfold flatten_token. apply match_token_grammar in Hm. rewrite Hm. simpl.
    rewrite IH, Hr, <- app_assoc. reflexivity.
Qed.

Lemma ascending_concat (G : list (list Z)) :
  ascending (List.concat G) -> Forall ascending G.
Proof.
  induction G as [|p G IH]; simpl; intros H; constructor;
    apply ascending_app in H; destruct H as (H1 & H2 & _); auto.
Qed.

Lemma _progressions_runs (l : list Z) :
  ascending l -> l <> [] ->
  Forall run (_progressions l) /\ List.concat (_progressions l) = l.
Proof.
  intros Hasc Hne.
  assert (Hc : List.concat (_progressions l) = l)
    by (rewrite _progressions_concat; apply sort_ascending_id, Hasc).
  split; [|exact Hc].
  assert (HF := greedy_runs_Forall _ (_progressions_greedy l Hne)).
  assert (HA : Forall ascending (_progressions l))
    by (apply ascending_concat; rewrite Hc; exact Hasc).
  rewrite Forall_forall in *. intros p Hin.
  destruct (HF p Hin) as [H1 H2]. repeat split; auto.
Qed.

(** [spec] followed by the spec-string branch of the constructor. *)
Lemma spec_roundtrip (l : list Z) :
  ascending l -> l <> [] ->
  Sequence (StrArg (_spec l)) = Ok {| _frames := l; _chunkSize := 1 |}.
Proof.
  intros Hasc Hne.
  destruct (_progressions_runs l Hasc Hne) as [Hruns Hconcat].
  unfold _spec. destruct l as [|x l]; [contradiction|].
  change (List.length (x :: l) =? 0)%nat with false. cbv iota.
  unfold Sequence, _flatten.
  rewrite split_join.
  - rewrite reduce_runs by assumption. simpl. rewrite Hconcat.
    rewrite sort_Set_id by assumption. reflexivity.
  - destruct (_progressions (x :: l)); [discriminate | discriminate].
  - apply Forall_map. eapply Forall_impl; [|exact Hruns].
    intros p Hp. destruct (spec_of_progression_token p Hp) as (m & Hm & _).
    eapply grammar_token_chars, Hm.
Qed.

(** ** binary64 rounding is exact on representable values *)

Section Binary64.

Local Open Scope Q_scope.

Lemma two_neq_0 : ~ 2 == 0.
Proof. intros H. discriminate H. Qed.

Lemma Qpow2_pos (k : Z) : 0 < Qpow2 k.
Proof. apply Qpower_0_lt. reflexivity. Qed.

Lemma Qpow2_Z (k : Z) : (0 <= k)%Z -> Qpow2 k == inject_Z (2 ^ k).
Proof. intros Hk. unfold Qpow2. rewrite Zpower_Qpower by assumption. reflexivity. Qed.

Lemma Qdiv_le_cross (A B N D : Q) :
  0 < B -> 0 < D -> 0 <= N -> A <= N -> D <= B -> A / B <= N / D.
Proof.
  intros HB HD HN HAN HDB.
  apply Qle_shift_div_r; [assumption|].
  apply Qle_trans with N; [assumption|].
  setoid_replace (N / D * B) with (N * B / D)
    by (field; intros E; rewrite E in HD; discriminate HD).
  apply Qle_shift_div_l; [assumption|].
  rewrite !(Qmult_comm N). apply Qmult_le_compat_r; assumption.
Qed.

Lemma Qlog2_lower (q : Q) : 0 < q -> Qpow2 (Qlog2 q) <= q.
Proof.
  intros Hq. unfold Qlog2. destruct q as [n d]. cbn [Qnum Qden].
  destruct (Qle_bool (Qpow2 (Z.log2 n - Z.log2 (Z.pos d))) (n # d)) eqn:E.
  - apply Qle_bool_iff, E.
  - assert (Hn : (0 < n)%Z) by (unfold Qlt in Hq; simpl in Hq; lia).
    destruct (Z.log2_spec n Hn) as [Ha _].
    destruct (Z.log2_spec (Z.pos d) ltac:(lia)) as [_ Hb].
    replace (Z.log2 n - Z.log2 (Z.pos d) - 1)%Z
      with (Z.log2 n - Z.succ (Z.log2 (Z.pos d)))%Z by lia.
    unfold Qpow2. rewrite Qpower_minus by apply two_neq_0.
    fold (Qpow2 (Z.log2 n)). fold (Qpow2 (Z.succ (Z.log2 (Z.pos d)))).
    rewrite !Qpow2_Z
      by (try apply Z.le_le_succ_r; apply Z.log2_nonneg).
    rewrite (Qmake_Qdiv n d).
    apply Qdiv_le_cross.
    + rewrite <- (Zlt_Qlt 0). lia.
    + rewrite <- (Zlt_Qlt 0). lia.
    + rewrite <- (Zle_Qle 0). lia.
    + rewrite <- Zle_Qle. exact Ha.
    + rewrite <- Zle_Qle. lia.
Qed.

Lemma round_half_even_Z (m : Q) (k : Z) : m == inject_Z k -> round_half_even m = k.
Proof.
  intros E. unfold round_half_even.
  rewrite (Qfloor_comp _ _ E), Qfloor_Z.
  assert (Hlt : m - inject_Z k < 1 # 2).
  { rewrite E. setoid_replace (inject_Z k - inject_Z k) with 0 by ring. reflexivity. }
  assert (Hc : Qcompare (m - inject_Z k) (1 # 2) = Lt)
    by (apply (proj1 (Qlt_alt _ _)); exact Hlt).
  rewrite Hc. reflexivity.
Qed.

(** A positive value [k * 2^e] with [k < 2^53] rounds to itself. *)
Lemma fl_exact_pos (q : Q) (k e : Z) :
  (0 < k < 2 ^ 53)%Z -> q == inject_Z k * Qpow2 e -> fl q == q.
Proof.
  intros Hk Hq.
  assert (Hpos : 0 < q).
  { rewrite Hq. apply Qmult_lt_0_compat; [|apply Qpow2_pos].
    rewrite <- (Zlt_Qlt 0). lia. }
  assert (Hc : Qcompare q 0 = Gt) by (apply (proj1 (Qgt_alt _ _)); exact Hpos).
  unfold fl. rewrite Hc.
  set (a := Qabs q).
  assert (Ha : a == q) by (apply Qabs_pos, Qlt_le_weak, Hpos).
  assert (Ha0 : 0 < a) by (rewrite Ha; exact Hpos).
  assert (Hlog := Qlog2_lower a Ha0).
  set (E := Qlog2 a) in *.
  (* 2^E <= a < 2^(53+e), hence E < 53 + e *)
  assert (HE : (E < 53 + e)%Z).
  { apply (Qpower_lt_compat_l_inv 2); [|reflexivity].
    fold (Qpow2 E). fold (Qpow2 (53 + e)).
    eapply Qle_lt_trans; [exact Hlog|].
    rewrite Ha, Hq. unfold Qpow2. rewrite Qpower_plus by apply two_neq_0.
    apply Qmult_lt_r; [apply Qpow2_pos|].
    change (2 ^ 53)%Q with (inject_Z (2 ^ 53)). rewrite <- Zlt_Qlt. lia. }
  assert (Hs : a * Qpow2 (52 - E) == inject_Z (k * 2 ^ (e + 52 - E))).
  { rewrite inject_Z_mult, <- Qpow2_Z by lia.
    rewrite Ha, Hq. unfold Qpow2.
    replace (e + 52 - E)%Z with (e + (52 - E))%Z by lia.
    rewrite (Qpower_plus 2 e) by apply two_neq_0. ring. }
  rewrite (round_half_even_Z _ _ Hs), <- Hs, <- Ha.
  apply Qdiv_mult_l. intros H0.
  assert (H1 := Qpow2_pos (52 - E)). rewrite H0 in H1. discriminate H1.
Qed.

Lemma fl_Z (q : Q) (k : Z) : (0 < k < 2 ^ 53)%Z -> q == inject_Z k -> fl q == inject_Z k.
Proof.
  intros Hk Hq. rewrite <- Hq. apply (fl_exact_pos q k 0 Hk).
  rewrite Hq. unfold Qpow2. simpl. ring.
Qed.

Lemma fl_half (q : Q) (k : Z) :
  (0 < k < 2 ^ 53)%Z -> q == inject_Z k / 2 -> fl q == inject_Z k / 2.
Proof.
  intros Hk Hq. rewrite <- Hq. apply (fl_exact_pos q k (-1) Hk).
  rewrite Hq. unfold Qpow2. reflexivity.
Qed.

End Binary64.

(** ** [subsample] *)

Lemma map_nth_seq (fr : list Z) :
  map (fun j => nth j fr 0) (seq 0 (List.length fr)) = fr.
Proof.
  induction fr as [|x fr IH]; simpl; [reflexivity|].
  f_equal. rewrite <- seq_shift, map_map. exact IH.
Qed.

Lemma Qfloor_half (k : Z) : Qfloor (inject_Z (2 * k + 1) / 2) = k.
Proof.
  change 2%Q with (inject_Z 2). rewrite <- Zdiv_Qdiv.
  rewrite Z.mul_comm, Z.div_add_l by lia. change (1 / 2) with 0. lia.
Qed.

(** When the gap is exactly 1 and the position is [i + 1/2], the loop reads
    the frames at indices [i], [i+1], ... *)
Lemma subsample_loop_unit (fr : list Z) (gap : Q) (k : nat) :
  forall (i : nat) (pos : Q),
    (gap == 1)%Q ->
    (pos == inject_Z (2 * Z.of_nat i + 1) / 2)%Q ->
    2 * Z.of_nat (i + k) + 1 < 2 ^ 53 ->
    subsample_loop k pos gap fr = map (fun j => nth j fr 0) (seq i k).
Proof.
  induction k as [|k IH]; intros i pos Hgap Hpos Hbound; [reflexivity|].
  cbn [subsample_loop seq map]. f_equal.
  - unfold Math_floor. rewrite (Qfloor_comp _ _ Hpos), Qfloor_half, Nat2Z.id.
    reflexivity.
  - apply IH; [assumption | | lia].
    unfold js_add. apply fl_half; [lia|].
    rewrite Hpos, Hgap.
    replace (2 * Z.of_nat (S i) + 1) with ((2 * Z.of_nat i + 1) + 2) by lia.
    rewrite !inject_Z_plus.
    change (inject_Z 1) with 1%Q. change (inject_Z 2) with 2%Q. field.
Qed.

Lemma subsample_all (count : Z) (s : SequenceT) :
  ascending (_frames s) ->
  Z.of_nat (List.length (_frames s)) < 2 ^ 32 ->
  Z.of_nat (List.length (_frames s)) <= count ->
  subsample count s = Ok {| _frames := _frames s; _chunkSize := 1 |}.
Proof.
  intros Hasc Hlen Hcount. unfold subsample.
  set (n := Z.of_nat (List.length (_frames s))) in *.
  destruct (Z.eq_dec n 0) as [Hz|Hnz].
  - assert (E : _frames s = []) by (destruct (_frames s); [reflexivity | simpl in n; lia]).
    rewrite Hz, E. replace (Z.min (Z.max 1 count) 0) with 0 by lia.
    reflexivity.
  - assert (Hn : 1 <= n) by lia.
    replace (Z.min (Z.max 1 count) n) with n by lia.
    assert (Hgap : (js_div (inject_Z n) (inject_Z n) == 1)%Q).
    { unfold js_div. apply (fl_Z _ 1); [lia|].
      field. intros H0. unfold Qeq in H0. simpl in H0. lia. }
    erewrite (subsample_loop_unit _ _ _ 0).
    + unfold n. rewrite Nat2Z.id, map_nth_seq.
      apply Sequence_of_ascending, Hasc.
    + exact Hgap.
    + unfold js_div at 1. apply (fl_half _ 1); [lia|]. rewrite Hgap. reflexivity.
    + rewrite Nat.add_0_l, Z2Nat.id by lia.
      assert (2 ^ 32 < 2 ^ 52) by reflexivity. lia.
Qed.

(** [subsample(1)] (or any smaller count, clamped to 1) picks the frame at
    index [floor(n / 2)]. *)
Lemma subsample_one (count : Z) (s : SequenceT) :
  _frames s <> [] ->
  Z.of_nat (List.length (_frames s)) < 2 ^ 32 ->
  count <= 1 ->
  subsample count s =
  Ok {| _frames := [nth (Z.to_nat (Z.of_nat (List.length (_frames s)) / 2))
                        (_frames s) 0];
        _chunkSize := 1 |}.
Proof.
  intros Hne Hlen Hcount. unfold subsample.
  set (n := Z.of_nat (List.length (_frames s))) in *.
  assert (Hn : 1 <= n) by (unfold n; destruct (_frames s); [contradiction | simpl; lia]).
  replace (Z.min (Z.max 1 count) n) with 1 by lia.
  assert (H32 : 2 ^ 32 < 2 ^ 53) by reflexivity.
  assert (Hgap : (js_div (inject_Z n) (inject_Z 1) == inject_Z n)%Q).
  { unfold js_div. apply fl_Z; [lia|]. field. }
  assert (Hpos : (js_div (js_div (inject_Z n) (inject_Z 1)) 2 == inject_Z n / 2)%Q).
  { unfold js_div at 1. apply fl_half; [lia|]. rewrite Hgap. reflexivity. }
  change (Z.to_nat 1) with 1%nat. cbn [subsample_loop].
  unfold Math_floor. rewrite (Qfloor_comp _ _ Hpos).
  change 2%Q with (inject_Z 2). rewrite <- Zdiv_Qdiv.
  apply Sequence_of_ascending. repeat constructor.
Qed.

Lemma iter_shift {A : Type} (f : A -> A) (i : nat) (x : A) :
  Nat.iter i f (f x) = Nat.iter (S i) f x.
Proof. induction i as [|i IH]; simpl; [reflexivity | rewrite IH; reflexivity]. Qed.

Lemma subsample_loop_positions (fr : list Z) (gap : Q) (k : nat) (pos : Q) :
  subsample_loop k pos gap fr =
  map (fun i => nth (Z.to_nat (Math_floor (Nat.iter i (fun p => js_add p gap) pos)))
                    fr 0)
      (seq 0 k).
Proof.
  revert pos. induction k as [|k IH]; intros pos; [reflexivity|].
  cbn [subsample_loop seq map]. f_equal.
  rewrite IH, <- seq_shift, map_map. apply map_ext. intros i.
  rewrite <- (iter_shift (fun p => js_add p gap)). reflexivity.
Qed.

(** ** The scenarios of [test/index.test.js], evaluated on the model *)

Example test_create :
  frames_of (Sequence NoArgs) = Some []
  /\ frames_of (Sequence (NumArgs 1 None None)) = Some [1]
  /\ frames_of (Sequence (NumArgs 1 (Some 10%Q) (Some 2%Q))) = Some [1; 3; 5; 7; 9]
  /\ frames_of (Sequence (StrArg "2-4x2,8,10-23x3"))
     = Some [2; 4; 8; 10; 13; 16; 19; 22]
  /\ frames_of (Sequence (ArrArg [1; 2; 9; 5; 6; 8]%Q)) = Some [1; 2; 5; 6; 8; 9].
Proof. repeat split. Qed.

Example test_spec :
  map _spec [[1; 2; 5; 6; 8; 9]; [-6; -4; -2; 0; 2; 4; 6]; [-8; -6; -4]; []; [1]]
  = ["1-2,5-6,8-9"; "-6-6x2"; "-8--4x2"; ""; "1"].
Proof. reflexivity. Qed.

Example test_transformations :
  option_map _spec (frames_of (offset 5 sample_1_10)) = Some "6-15"
  /\ option_map _spec (frames_of (scale 3 sample_1_10)) = Some "3-30x3"
  /\ option_map _spec
       (frames_of (fill 1 {| _frames := [1; 4; 7; 10]; _chunkSize := 1 |}))
     = Some "1-10".
Proof. repeat split. Qed.

Example test_subsample :
  map (fun count => frames_of (subsample count sample_1_10))
      [1; 2; 3; 4; 5; 6; 7; 8; 9; 10; 11]
  = [ Some [6]; Some [3; 8]; Some [2; 6; 9]; Some [2; 4; 7; 9];
      Some [2; 4; 6; 8; 10]; Some [1; 3; 5; 6; 8; 10];
      Some [1; 3; 4; 6; 7; 8; 10]; Some [1; 2; 4; 5; 6; 7; 9; 10];
      Some [1; 2; 3; 4; 6; 7; 8; 9; 10];
      Some [1; 2; 3; 4; 5; 6; 7; 8; 9; 10];
      Some [1; 2; 3; 4; 5; 6; 7; 8; 9; 10] ].
Proof. vm_compute. reflexivity. Qed.

(** Every canonical list is the frame list of an instance. *)
Lemma canonical_instance (l : list Z) :
  ascending l -> instance {| _frames := l; _chunkSize := 1 |}.
Proof.
  intros H. apply (I_Sequence (of_frames l)). apply Sequence_of_ascending, H.
Qed.

(** ** The claims *)



(** C2 (canonical form).  The frames of every Sequence instance -- built by
    the constructor from any argument shape it accepts, or returned by
    [progressions], [chunks], [intersection], [union], [difference],
    [offset], [scale], [fill], [intersectingChunks] or [subsample], and
    whatever its chunk size was set to -- are strictly ascending, hence free
    of duplicates. *)
Theorem frames_canonical (s : SequenceT) :
  instance s -> StronglySorted Z.lt (frames s) /\ NoDup (frames s).
Proof.
  intros Hs. apply instance_inv in Hs. destruct Hs as [Hasc _].
  split; [exact Hasc | apply ascending_NoDup, Hasc].
Qed.

Lemma frames_canonical_witness :
  exists s,
    scale (1 # 2) sample_1_5 = Ok s /\
    frames s = [0; 1; 2] /\
    StronglySorted Z.lt (frames s) /\ NoDup (frames s).
Proof.
  eexists. split; [reflexivity|]. split; [reflexivity|].
  apply frames_canonical.
  eapply (I_scale (1 # 2) sample_1_5); [|reflexivity].
  apply (I_Sequence (NumArgs 1 (Some 5%Q) None)). reflexivity.
Defined.

(** *** Spec strings *)

Lemma digit_val_nonneg (c : ascii) : is_digit c = true -> 0 <= digit_val c.
Proof.
  unfold is_digit, digit_val. rewrite andb_true_iff, !Nat.leb_le. lia.
Qed.

Lemma digit19_val_pos (c : ascii) : is_digit19 c = true -> 1 <= digit_val c.
Proof.
  unfold is_digit19, digit_val. rewrite andb_true_iff, !Nat.leb_le. lia.
Qed.

Lemma digits_value_mono (d : string) (acc : Z) :
  all_chars is_digit d = true -> 0 <= acc -> acc <= digits_value d acc.
Proof.
  revert acc. induction d as [|c d IH]; intros acc Hd Hacc; cbn [digits_value];
    [lia|].
  cbn [all_chars] in Hd. apply andb_true_iff in Hd. destruct Hd as [Hc Hd].
  assert (H := digit_val_nonneg c Hc).
  specialize (IH (10 * acc + digit_val c) Hd ltac:(lia)). lia.
Qed.

(** A step the grammar accepts is a positive number. *)
Lemma STEP_value (g : string) : grammar_STEP g -> 1 <= Number_of_string g.
Proof.
  intros [c d Hc Hd]. unfold Number_of_string.
  rewrite (digit_not_minus c (digit19_digit c Hc)).
  cbn [digits_value]. assert (H := digit19_val_pos c Hc).
  assert (H' := digits_value_mono d (10 * 0 + digit_val c) Hd ltac:(lia)). lia.
Qed.

Lemma _range_In {A : Type} `{Numeric A} (first : A) (last step : option A) (z : Z) :
  let f := Math_trunc first in
  let l := match last with None => f | Some l => Math_trunc l end in
  let st := match step with None => 1 | Some s => Math_trunc s end in
  In z (_range first last step) <->
  exists k, 0 <= k /\ z = Z.min f l + k * Z.max 1 st /\ z <= Z.max f l.
Proof.
  intros f l st. rewrite _range_unfold. fold f l st. split.
  - apply range_loop_sound.
  - intros (k & Hk & -> & Hle). apply range_loop_complete; lia.
Qed.

Lemma token_range_In (tok : string) (m : groups) (z : Z) :
  grammar_token tok m ->
  In z (_range (g_first m) (g_last m) (g_step m)) <-> token_frames m z.
Proof.
  intros Hm. rewrite _range_In. unfold token_frames.
  assert (Hst : Z.max 1 (match g_step m with
                         | Some g => Number_of_string g
                         | None => 1
                         end)
                = match g_step m with
                  | Some g => Number_of_string g
                  | None => 1
                  end).
  { destruct Hm as [a Ha | a b Ha Hb | a b g Ha Hb Hg]; cbn [g_step];
      [reflexivity | reflexivity |].
    apply Z.max_r, STEP_value, Hg. }
  unfold Math_trunc, Numeric_string. rewrite Hst. reflexivity.
Qed.

Lemma reduce_tokens (toks : list string) (ms : list groups) (accum : list Z) :
  Forall2 grammar_token toks ms ->
  reduce flatten_token toks accum =
  Ok (accum ++ List.concat
                 (map (fun m => _range (g_first m) (g_last m) (g_step m)) ms)).
Proof.
  intros H. revert accum. induction H as [|tok m toks ms Hm _ IH]; intros accum.
  - simpl. rewrite app_nil_r. reflexivity.
  - cbn [reduce map List.concat]. unfold flatten_token.
    apply match_token_grammar in Hm. rewrite Hm. cbn [bind].
    rewrite IH, <- app_assoc. reflexivity.
Qed.

Lemma reduce_tokens_throw (toks : list string) (accum : list Z) :
  Exists (fun tok => match_token tok = None) toks ->
  reduce flatten_token toks accum = Throw (RangeError errmsg).
Proof.
  intros H. revert accum. induction H as [tok toks Hn | tok toks _ IH];
    intros accum; cbn [reduce]; unfold flatten_token.
  - rewrite Hn. reflexivity.
  - destruct (match_token tok); cbn [bind]; [apply IH | reflexivity].
Qed.

Lemma reduce_tokens_cases (toks : list string) :
  Exists (fun tok => match_token tok = None) toks
  \/ exists ms, Forall2 grammar_token toks ms.
Proof.
  induction toks as [|tok toks [IH | (ms & IH)]].
  - right. exists []. constructor.
  - left. apply Exists_cons_tl, IH.
  - destruct (match_token tok) as [m|] eqn:E.
    + right. exists (m :: ms). constructor; [apply match_token_grammar, E | exact IH].
    + left. apply Exists_cons_hd, E.
Qed.

Lemma Forall2_In_right {A B : Type} (R : A -> B -> Prop) (l : list A) (l' : list B)
    (y : B) :
  Forall2 R l l' -> In y l' -> exists x, In x l /\ R x y.
Proof.
  induction 1 as [|x y' l l' Hxy _ IH]; intros Hin; [contradiction|].
  destruct Hin as [<-|Hin].
  - exists x. split; [left; reflexivity | assumption].
  - destruct (IH Hin) as (x' & Hx' & HR). exists x'. split; [right|]; assumption.
Qed.



(** C4 (chunk coverage and size bound).  On every Sequence instance (its
    chunk size is then an integer, at least 1) and for either value of
    [enforceProgressions], [chunks] returns; the frame lists of the chunks,
    concatenated in order, are the frames of the sequence; no chunk is
    longer than the chunk size; and a chunk that is followed by another one
    and is shorter than the chunk size occurs only with
    [enforceProgressions = true], the chunk extended by the first frame of
    its successor not being a progression. *)
Theorem chunks_cover (enforceProgressions : bool) (s : SequenceT) :
  instance s ->
  exists cs,
    chunks enforceProgressions s = Ok cs /\
    List.concat (map frames cs) = frames s /\
    Forall (fun c => Z.of_nat (List.length (frames c)) <= chunkSize s) cs /\
    forall pre c c' post,
      cs = pre ++ c :: c' :: post ->
      Z.of_nat (List.length (frames c)) < chunkSize s ->
      enforceProgressions = true /\
      frames c' <> [] /\
      _isProgression (frames c ++ [hd 0 (frames c')]) = false.
Proof.
  intros Hs. apply instance_inv in Hs. destruct Hs as [Hasc Hsize].
  set (L := chunk_lists enforceProgressions (_chunkSize s) (_frames s) (_frames s) 0 []).
  assert (Hconcat : List.concat L = _frames s)
    by (apply chunk_lists_concat; [reflexivity | reflexivity]).
  assert (Hch : chunked enforceProgressions (_chunkSize s) L)
    by (apply (chunk_lists_chunked _ _ _ [] (_frames s) []); [reflexivity | simpl; lia]).
  assert (Hfr : map frames (map wrap L) = L)
    by (apply wrap_frames; rewrite Hconcat; exact Hasc).
  exists (map wrap L). rewrite chunks_eq. fold L. rewrite Hfr.
  split; [reflexivity|]. split; [exact Hconcat|]. split.
  - apply Forall_forall. intros c Hc.
    assert (Hin : In (frames c) L) by (rewrite <- Hfr; apply in_map, Hc).
    apply chunked_Forall in Hch. rewrite Forall_forall in Hch.
    apply (Hch _ Hin).
  - intros pre c c' post Heq Hlt.
    apply (chunked_neighbours _ _ _ Hch (map frames pre) (frames c) (frames c')
             (map frames post)); [|exact Hlt].
    rewrite <- Hfr, Heq, map_app. reflexivity.
Qed.

Lemma chunks_cover_witness :
  option_map (map frames)
             (match chunks true sample_gaps with
              | Ok cs => Some cs
              | Throw _ => None
              end)
  = Some [[1; 2; 3]; [5; 6; 7; 8]; [10; 11; 12]]
  /\ exists cs,
    chunks true sample_gaps = Ok cs /\
    List.concat (map frames cs) = frames sample_gaps /\
    Forall (fun c => Z.of_nat (List.length (frames c)) <= chunkSize sample_gaps)
           cs /\
    forall pre c c' post,
      cs = pre ++ c :: c' :: post ->
      Z.of_nat (List.length (frames c)) < chunkSize sample_gaps ->
      true = true /\
      frames c' <> [] /\
      _isProgression (frames c ++ [hd 0 (frames c')]) = false.
Proof.
  split; [reflexivity|].
  apply (chunks_cover true sample_gaps).
  apply I_setChunkSize.
  apply (I_Sequence (of_frames [1; 2; 3; 5; 6; 7; 8; 10; 11; 12])). reflexivity.
Defined.

(** C5 (subsample).  With [n] the number of frames (a JavaScript array holds
    fewer than 2^32 elements) and [count] an integer, [subsample] clamps
    [count] to [min (max 1 count) n], takes [gap = n / count] by number (not
    integer) division, and selects that many frames, the [i]-th at index
    [floor] of the position reached from [gap / 2] by [i] additions of
    [gap].  Consequently [count >= n] returns every frame in order, and on a
    non-empty sequence [subsample(1)] returns the single frame at index
    [floor (n / 2)]; [Sequence("1-10").subsample(3)] has frames [2,6,9]. *)
Theorem subsample_centered_buckets (count : Z) (s : SequenceT) :
  instance s ->
  Z.of_nat (List.length (frames s)) < 2 ^ 32 ->
  let n := Z.of_nat (List.length (frames s)) in
  let clamped := Z.min (Z.max 1 count) n in
  let gap := js_div (inject_Z n) (inject_Z clamped) in
  subsample count s =
    Sequence (of_frames
                (map (fun i => nth (Z.to_nat (Math_floor (bucket_position gap i)))
                                   (frames s) 0)
                     (seq 0 (Z.to_nat clamped))))
  /\ (n <= count ->
      exists r, subsample count s = Ok r /\ frames r = frames s)
  /\ (frames s <> [] ->
      exists r, subsample 1 s = Ok r /\
                frames r = [nth (Z.to_nat (n / 2)) (frames s) 0])
  /\ (forall s10, Sequence (StrArg "1-10") = Ok s10 ->
      exists r, subsample 3 s10 = Ok r /\ frames r = [2; 6; 9]).
Proof.
  intros Hs Hlen n clamped gap.
  apply instance_inv in Hs. destruct Hs as [Hasc _].
  split; [|split; [|split]].
  - unfold subsample. fold (frames s). fold n. fold clamped. fold gap.
    rewrite subsample_loop_positions. reflexivity.
  - intros Hcount. eexists. split; [apply subsample_all; assumption | reflexivity].
  - intros Hne. eexists.
    split; [apply subsample_one; [assumption | assumption | lia] | reflexivity].
  - intros s10 [= <-]. eexists. split; reflexivity.
Qed.

Lemma subsample_centered_buckets_witness :
  (exists r, subsample 12 sample_1_10 = Ok r /\ frames r = frames sample_1_10)
  /\ (exists r, subsample 1 sample_1_10 = Ok r /\ frames r = [6]).
Proof.
  assert (Hs : instance sample_1_10)
    by (apply (I_Sequence (StrArg "1-10")); reflexivity).
  assert (Hlen : Z.of_nat (List.length (frames sample_1_10)) < 2 ^ 32)
    by reflexivity.
  destruct (subsample_centered_buckets 12 sample_1_10 Hs Hlen)
    as (_ & Hall & Hone & _).
  split.
  - apply Hall. simpl. lia.
  - apply Hone. discriminate.
Defined.

(** The rounding of binary64 arithmetic is visible in the result: on eight
    frames and [count = 6] the fifth position is [5.999999999999999], not
    [6], and frame 6 is selected where exact arithmetic would select 7. *)
Remark subsample_rounding :
  subsample 6 {| _frames := [1; 2; 3; 4; 5; 6; 7; 8]; _chunkSize := 1 |}
  = Ok {| _frames := [1; 3; 4; 5; 6; 8]; _chunkSize := 1 |}.
Proof. reflexivity. Qed.










(** C9 as stated fails: constructing from a boolean yields no Sequence. *)
Lemma unaccepted_shape_counterexample :
  ~ (exists s, Sequence (OtherArg (OBoolean true)) = Ok s /\ frames s = []).
Proof. intros (s & H & _). discriminate H. Qed.

(** C9, amended (unaccepted argument shapes).  Construction from an argument
    that is neither a number, nor a string, nor an array -- [undefined],
    [null], a boolean, a plain object -- throws a [TypeError]: [_flatten]
    returns [undefined], which cannot be spread into [_frames.push]. *)
Theorem unaccepted_shape_throws (v : other_value) :
  _flatten (OtherArg v) = Ok None /\ Sequence (OtherArg v) = Throw TypeError.
Proof. split; reflexivity. Qed.

(** C10 (intersects with an empty sequence).  When either sequence has no
    frame, [intersects] returns [false]: the comparisons of the fast path
    involve an [undefined] bound and are false, and the scan finds no
    common frame. *)
Theorem intersects_empty (s other : SequenceT) :
  frames s = [] \/ frames other = [] -> intersects s other = false.
Proof.
  unfold intersects, first, last_, frames. intros [E|E]; rewrite E.
  - reflexivity.
  - assert (X : existsb (fun f => includes [] f) (_frames s) = false)
      by (induction (_frames s) as [|f fr IH]; [reflexivity | exact IH]).
    rewrite X. destruct (js_gt _ _ || js_lt _ _); reflexivity.
Qed.

Lemma intersects_empty_witness :
  intersects sample_empty sample_1_5 = false
  /\ intersects sample_1_5 sample_empty = false.
Proof.
  split; apply intersects_empty; [left | right]; reflexivity.
Defined.

(** * Further properties of the operations *)

(** ** Canonical lists are determined by their elements *)

Lemma ascending_head_min (x : Z) (l : list Z) (z : Z) :
  ascending (x :: l) -> In z (x :: l) -> x <= z.
Proof.
  intros H [<-|Hin]; [lia|].
  inversion H as [|? ? _ Hall]; subst. rewrite Forall_forall in Hall.
  specialize (Hall z Hin). lia.
Qed.

Lemma ascending_ext (l1 l2 : list Z) :
  ascending l1 -> ascending l2 -> (forall z, In z l1 <-> In z l2) -> l1 = l2.
Proof.
  revert l2. induction l1 as [|x t IH]; intros [|y u] H1 H2 Hiff.
  - reflexivity.
  - exfalso. apply (proj2 (Hiff y)). left. reflexivity.
  - exfalso. apply (proj1 (Hiff x)). left. reflexivity.
  - assert (Hxy : x = y).
    { assert (A := ascending_head_min y u x H2 (proj1 (Hiff x) (or_introl eq_refl))).
      assert (B := ascending_head_min x t y H1 (proj2 (Hiff y) (or_introl eq_refl))).
      lia. }
    subst y. f_equal.
    inversion H1 as [|? ? Ht Hxt]; subst. inversion H2 as [|? ? Hu Hxu]; subst.
    rewrite Forall_forall in Hxt, Hxu.
    apply IH; [assumption | assumption |].
    intros z. split; intros Hz.
    + destruct (proj1 (Hiff z) (or_intror Hz)) as [E|Hin]; [|exact Hin].
      specialize (Hxt z Hz). lia.
    + destruct (proj2 (Hiff z) (or_intror Hz)) as [E|Hin]; [|exact Hin].
      specialize (Hxu z Hz). lia.
Qed.

Lemma sort_Set_ext (l1 l2 : list Z) :
  (forall z, In z l1 <-> In z l2) -> sort (Set_ l1) = sort (Set_ l2).
Proof.
  intros H. apply ascending_ext; try apply sort_Set_ascending.
  intros z. rewrite !sort_Set_In. apply H.
Qed.

(** ** [first] and [last] *)

Lemma last_slice (l : list Z) :
  l <> [] -> nth_error (skipn (List.length l - 1) l) 0 = Some (last l 0).
Proof.
  induction l as [|x [|y t] IH]; intros Hne; [contradiction | reflexivity |].
  specialize (IH ltac:(discriminate)).
  replace (List.length (x :: y :: t) - 1)%nat with (S (List.length (y :: t) - 1))
    by (simpl; lia).
  change (last (x :: y :: t) 0) with (last (y :: t) 0).
  exact IH.
Qed.

Lemma ascending_last_max (l : list Z) (z : Z) :
  ascending l -> In z l -> z <= last l 0.
Proof.
  revert z. induction l as [|x [|y t] IH]; intros z H Hin; [contradiction | |].
  - destruct Hin as [<-|[]]. simpl. lia.
  - change (last (x :: y :: t) 0) with (last (y :: t) 0).
    inversion H as [|? ? Ht Hall]; subst.
    destruct Hin as [<-|Hin]; [|apply IH; assumption].
    assert (y <= last (y :: t) 0) by (apply IH; [assumption | left; reflexivity]).
    inversion Hall; subst. lia.
Qed.

Lemma last_In (l : list Z) : l <> [] -> In (last l 0) l.
Proof.
  induction l as [|x [|y t] IH]; intros Hne; [contradiction | left; reflexivity |].
  right. apply IH. discriminate.
Qed.

(** X1 ([first], [last]).  On a Sequence instance, [first()] and [last()]
    are [undefined] exactly when there is no frame; otherwise they are
    frames of the sequence, the smallest and the largest one. *)
Theorem first_last_bounds (s : SequenceT) :
  instance s ->
  (first s = None <-> frames s = [])
  /\ (last_ s = None <-> frames s = [])
  /\ forall a b, first s = Some a -> last_ s = Some b ->
       In a (frames s) /\ In b (frames s)
       /\ forall z, In z (frames s) -> a <= z <= b.
Proof.
  intros Hs. apply instance_inv in Hs. destruct Hs as [Hasc _].
  unfold first, last_, frames in *.
  destruct (_frames s) as [|x t] eqn:E.
  - repeat split; intros; try reflexivity; discriminate.
  - rewrite last_slice by discriminate.
    split; [split; discriminate|]. split; [split; discriminate|].
    intros a b Ha Hb. injection Ha as <-. injection Hb as <-.
    split; [left; reflexivity|].
    split; [apply (last_In (x :: t)); discriminate|].
    intros z Hz. split.
    + apply (ascending_head_min x t z Hasc Hz).
    + apply (ascending_last_max (x :: t)); assumption.
Qed.

Lemma first_last_bounds_witness :
  first sample_mixed = Some (-8) /\ last_ sample_mixed = Some 7
  /\ forall z, In z (frames sample_mixed) -> -8 <= z <= 7.
Proof.
  split; [reflexivity|]. split; [reflexivity|].
  assert (Hs : instance sample_mixed)
    by (apply (I_Sequence (of_frames [7; -8; 1; -6; 2; -4; 3])); reflexivity).
  destruct (first_last_bounds sample_mixed Hs) as (_ & _ & H).
  apply (H (-8) 7); reflexivity.
Defined.

(** ** The array shape of the constructor *)



(** ** The numeric shape of the constructor *)

Lemma range_loop_past (fuel : nat) (i last stepVal : Z) :
  last < i -> range_loop fuel i last stepVal = [].
Proof.
  intros H. destruct fuel; simpl; [reflexivity|].
  destruct (Z.leb_spec i last); [lia | reflexivity].
Qed.

Lemma range_loop_count (last stepVal : Z) (n : nat) :
  forall (i : Z) (fuel : nat),
    1 <= stepVal ->
    i + Z.of_nat n * stepVal <= last < i + (Z.of_nat n + 1) * stepVal ->
    (n < fuel)%nat ->
    range_loop fuel i last stepVal =
    map (fun k => i + Z.of_nat k * stepVal) (seq 0 (S n)).
Proof.
  induction n as [|n IH]; intros i fuel Hs Hb Hf;
    (destruct fuel as [|f]; [lia|]); cbn [range_loop].
  - destruct (Z.leb_spec i last); [|lia].
    rewrite range_loop_past by lia. simpl. f_equal. lia.
  - destruct (Z.leb_spec i last); [|nia].
    rewrite (IH (i + stepVal) f) by (try assumption; nia).
    change (seq 0 (S (S n))) with (0%nat :: seq 1 (S n)).
    rewrite (map_cons _ 0%nat). f_equal; [lia|].
    rewrite <- seq_shift, map_map. apply map_ext. intros k. lia.
Qed.

Lemma _range_closed {A : Type} `{Numeric A} (first : A) (last step : option A) :
  let f := Math_trunc first in
  let l := match last with None => f | Some l => Math_trunc l end in
  let st := match step with None => 1 | Some s => Math_trunc s end in
  let lo := Z.min f l in
  let hi := Z.max f l in
  let stepVal := Z.max 1 st in
  _range first last step =
  map (fun k => lo + Z.of_nat k * stepVal)
      (seq 0 (S (Z.to_nat ((hi - lo) / stepVal)))).
Proof.
  intros f l st lo hi stepVal. rewrite _range_unfold.
  fold f l st lo hi stepVal.
  assert (Hs : 1 <= stepVal) by (unfold stepVal; lia).
  assert (Hd : 0 <= hi - lo) by (unfold hi, lo; lia).
  assert (Hq : 0 <= (hi - lo) / stepVal) by (apply Z.div_pos; lia).
  assert (Hm := Z.mul_div_le (hi - lo) stepVal ltac:(lia)).
  assert (Hm' := Z.mul_succ_div_gt (hi - lo) stepVal ltac:(lia)).
  apply range_loop_count; [assumption | rewrite Z2Nat.id by assumption; lia |].
  apply Nat2Z.inj_lt. rewrite Z2Nat.id by assumption. rewrite Z2Nat.id by lia.
  nia.
Qed.


Lemma constant_gap_steps (lo stepVal : Z) (n i : nat) :
  constant_gap stepVal (map (fun k => lo + Z.of_nat k * stepVal) (seq i n)).
Proof.
  revert i. induction n as [|[|n] IH]; intros i; [exact I | exact I |].
  change (seq i (S (S n))) with (i :: seq (S i) (S n)).
  rewrite map_cons. specialize (IH (S i)).
  change (seq (S i) (S n)) with (S i :: seq (S (S i)) n) in *.
  rewrite map_cons in *. split; [lia | exact IH].
Qed.


(** ** Set algebra *)

Lemma filter_ascending (p : Z -> bool) (l : list Z) :
  ascending l -> ascending (filter p l).
Proof.
  unfold ascending. induction 1 as [|x l Hl IH Hx]; simpl; [constructor|].
  destruct (p x); [|exact IH]. constructor; [exact IH|].
  rewrite Forall_forall in *. intros z Hz. apply filter_In in Hz. apply Hx, Hz.
Qed.

Lemma Sequence_of_frames_ext (l1 l2 : list Z) :
  (forall z, In z l1 <-> In z l2) ->
  Sequence (of_frames l1) = Sequence (of_frames l2).
Proof.
  intros H. rewrite !Sequence_of_frames, (sort_Set_ext l1 l2 H). reflexivity.
Qed.


(** X6 (laws of [union]).  [union] is associative; on Sequence instances
    it is idempotent and has every empty Sequence as a neutral element, up
    to the chunk size, which the result never inherits. *)
Theorem union_laws (s other third : SequenceT) :
  instance s ->
  (u <- union s other ;; union u third) = (v <- union other third ;; union s v)
  /\ union s s = Ok {| _frames := frames s; _chunkSize := 1 |}
  /\ (frames other = [] ->
      union s other = Ok {| _frames := frames s; _chunkSize := 1 |}
      /\ union other s = Ok {| _frames := frames s; _chunkSize := 1 |}).
Proof.
  intros Hs. apply instance_inv in Hs. destruct Hs as [Hasc _].
  unfold union, frames. rewrite !Sequence_of_frames. cbn [bind _frames].
  split; [|split].
  - rewrite !Sequence_of_frames. do 2 f_equal. apply sort_Set_ext.
    intros z. rewrite !in_app_iff, !sort_Set_In, !in_app_iff. tauto.
  - rewrite <- (sort_Set_id (_frames s)) at 3 by assumption.
    do 2 f_equal. apply sort_Set_ext. intros z. rewrite in_app_iff. tauto.
  - intros E. rewrite E, app_nil_r. cbn [app].
    rewrite !sort_Set_id by assumption. split; reflexivity.
Qed.

Lemma union_laws_witness :
  (u <- union sample_1_5 sample_mixed ;; union u sample_1_10)
  = (v <- union sample_mixed sample_1_10 ;; union sample_1_5 v)
  /\ union sample_1_5 sample_1_5 = Ok sample_1_5.
Proof.
  assert (Hs : instance sample_1_5)
    by (apply (I_Sequence (NumArgs 1 (Some 5%Q) None)); reflexivity).
  destruct (union_laws sample_1_5 sample_mixed sample_1_10 Hs) as (A & B & _).
  split; [exact A | exact B].
Defined.

(** X7 ([intersection]).  On a Sequence instance, [intersection] returns
    the frames of the receiver that [other] includes, in the receiver's
    order (the constructor has nothing left to sort or to drop); these are
    the frames common to both, so exchanging the operands gives the same
    result. *)
Theorem intersection_frames (s other : SequenceT) :
  instance s ->
  exists r,
    intersection s other = Ok r
    /\ frames r = filter (fun f => includes (frames other) f) (frames s)
    /\ (forall z, In z (frames r) <-> In z (frames s) /\ In z (frames other))
    /\ intersection other s = Ok r
    /\ chunkSize r = 1.
Proof.
  intros Hs. apply instance_inv in Hs. destruct Hs as [Hasc _].
  unfold intersection. eexists.
  split; [apply Sequence_of_ascending, filter_ascending, Hasc|].
  unfold frames, chunkSize. cbn [_frames _chunkSize].
  assert (M : forall z, In z (filter (fun f => includes (_frames other) f) (_frames s))
                        <-> In z (_frames s) /\ In z (_frames other))
    by (intros z; rewrite filter_In, includes_In; tauto).
  split; [reflexivity|]. split; [exact M|]. split; [|reflexivity].
  rewrite <- (Sequence_of_ascending _ (filter_ascending _ _ Hasc)).
  apply Sequence_of_frames_ext. intros z.
  rewrite M, filter_In, includes_In. tauto.
Qed.

Lemma intersection_frames_witness :
  exists r,
    intersection sample_mixed sample_1_5 = Ok r
    /\ frames r = [1; 2; 3]
    /\ intersection sample_1_5 sample_mixed = Ok r.
Proof.
  assert (Hs : instance sample_mixed)
    by (apply (I_Sequence (of_frames [7; -8; 1; -6; 2; -4; 3])); reflexivity).
  destruct (intersection_frames sample_mixed sample_1_5 Hs)
    as (r & Hr & Hf & _ & Hc & _).
  exists r. split; [exact Hr|]. split; [rewrite Hf; reflexivity | exact Hc].
Defined.

Lemma filter_split_length {A : Type} (p : A -> bool) (l : list A) :
  (List.length (filter p l) + List.length (filter (fun x => negb (p x)) l)
   = List.length l)%nat.
Proof.
  induction l as [|x l IH]; simpl; [reflexivity|].
  destruct (p x); simpl; lia.
Qed.

(** X8 ([difference]).  On a Sequence instance, [difference] returns the
    frames of the receiver that [other] does not include, in order.
    Together with [intersection] it splits the receiver: the two results
    share no frame, their lengths add up to the receiver's, and their
    [union] gives the receiver's frames back.  The difference of a Sequence
    with itself is empty. *)
Theorem difference_frames (s other : SequenceT) :
  instance s ->
  exists d i,
    difference s other = Ok d
    /\ intersection s other = Ok i
    /\ frames d = filter (fun f => negb (includes (frames other) f)) (frames s)
    /\ (forall z, In z (frames d) <-> In z (frames s) /\ ~ In z (frames other))
    /\ (forall z, In z (frames d) -> ~ In z (frames i))
    /\ length_ d + length_ i = length_ s
    /\ union i d = Ok {| _frames := frames s; _chunkSize := 1 |}
    /\ difference s s = Ok {| _frames := []; _chunkSize := 1 |}.
Proof.
  intros Hs. apply instance_inv in Hs. destruct Hs as [Hasc _].
  unfold difference, intersection, union. do 2 eexists.
  split; [apply Sequence_of_ascending, filter_ascending, Hasc|].
  split; [apply Sequence_of_ascending, filter_ascending, Hasc|].
  unfold frames, length_. cbn [_frames].
  assert (M : forall z,
             In z (filter (fun f => negb (includes (_frames other) f)) (_frames s))
             <-> In z (_frames s) /\ ~ In z (_frames other)).
  { intros z. rewrite filter_In, negb_true_iff, <- not_true_iff_false, includes_In.
    tauto. }
  split; [reflexivity|]. split; [exact M|]. split; [|split; [|split]].
  - intros z Hz Hi. apply M in Hz. apply filter_In in Hi.
    destruct Hi as [_ Hi]. apply includes_In in Hi. tauto.
  - rewrite <- Nat2Z.inj_add. f_equal. rewrite Nat.add_comm. apply (filter_split_length (fun f => includes (_frames other) f)).
  - rewrite <- (Sequence_of_ascending _ Hasc).
    apply Sequence_of_frames_ext. intros z.
    rewrite in_app_iff, M, filter_In, includes_In.
    destruct (in_dec Z.eq_dec z (_frames other)); tauto.
  - rewrite <- (Sequence_of_ascending [] ltac:(constructor)).
    apply Sequence_of_frames_ext. intros z. rewrite filter_In, negb_true_iff.
    split; [|contradiction]. intros [Hin Hno].
    apply (includes_In (_frames s) z) in Hin. congruence.
Qed.

Lemma difference_frames_witness :
  exists d,
    difference sample_mixed sample_1_5 = Ok d
    /\ frames d = [-8; -6; -4; 7]
    /\ difference sample_mixed sample_mixed = Ok sample_empty.
Proof.
  assert (Hs : instance sample_mixed)
    by (apply (I_Sequence (of_frames [7; -8; 1; -6; 2; -4; 3])); reflexivity).
  destruct (difference_frames sample_mixed sample_1_5 Hs)
    as (d & i & Hd & _ & Hf & _ & _ & _ & _ & Hself).
  exists d. split; [exact Hd|]. split; [rewrite Hf; reflexivity | exact Hself].
Defined.

Lemma existsb_includes_nil (l : list Z) :
  existsb (fun f => includes [] f) l = false.
Proof. induction l as [|x l IH]; [reflexivity | exact IH]. Qed.

Lemma first_last_nonempty (s : SequenceT) :
  instance s ->
  frames s = []
  \/ exists a b,
       first s = Some a /\ last_ s = Some b
       /\ forall z, In z (frames s) -> a <= z <= b.
Proof.
  intros Hs. apply instance_inv in Hs. destruct Hs as [Hasc _].
  unfold first, last_, frames in *.
  destruct (_frames s) as [|x t] eqn:E; [left; reflexivity | right].
  exists x, (last (x :: t) 0). rewrite last_slice by discriminate.
  split; [reflexivity|]. split; [reflexivity|].
  intros z Hz. split.
  - apply (ascending_head_min x t z Hasc Hz).
  - apply (ascending_last_max (x :: t)); assumption.
Qed.

Lemma intersects_spec (s other : SequenceT) :
  instance s -> instance other ->
  intersects s other = true
  <-> exists f, In f (frames s) /\ In f (frames other).
Proof.
  intros Hs Ho.
  destruct (first_last_nonempty s Hs) as [Es | (a & b & Ha & Hb & Hab)];
    destruct (first_last_nonempty other Ho) as [Eo | (c & d & Hc & Hd & Hcd)].
  - split; [|intros (f & Hf & _); rewrite Es in Hf; contradiction].
    unfold intersects, frames in *. rewrite Es. simpl.
    destruct (js_gt _ _ || js_lt _ _); discriminate.
  - split; [|intros (f & Hf & _); rewrite Es in Hf; contradiction].
    unfold intersects, frames in *. rewrite Es. simpl.
    destruct (js_gt _ _ || js_lt _ _); discriminate.
  - split; [|intros (f & _ & Hf); rewrite Eo in Hf; contradiction].
    unfold intersects, frames in *. rewrite Eo.
    rewrite existsb_includes_nil. destruct (js_gt _ _ || js_lt _ _); discriminate.
  - unfold intersects. rewrite Ha, Hb, Hc, Hd. cbn [js_gt js_lt].
    split.
    + destruct (_ || _); [discriminate|]. intros H.
      apply existsb_exists in H. destruct H as (f & Hf & Hin).
      exists f. split; [exact Hf | apply includes_In, Hin].
    + intros (f & Hf & Hg).
      destruct (Hab f Hf) as [? ?]. destruct (Hcd f Hg) as [? ?].
      destruct (Z.ltb_spec d a); [lia|]. destruct (Z.ltb_spec b c); [lia|].
      cbn [orb]. apply existsb_exists. exists f.
      split; [exact Hf | apply includes_In, Hg].
Qed.

(** X9 ([intersects]).  On Sequence instances, [intersects] answers exactly
    whether the two sequences share a frame: the early exit on disjoint
    bounding ranges never hides a common frame.  Hence it is symmetric, and
    it is false exactly when [intersection] is empty. *)
Theorem intersects_common_frame (s other : SequenceT) :
  instance s -> instance other ->
  (intersects s other = true
   <-> exists f, In f (frames s) /\ In f (frames other))
  /\ intersects s other = intersects other s
  /\ (intersects s other = false
      <-> intersection s other = Ok {| _frames := []; _chunkSize := 1 |}).
Proof.
  intros Hs Ho. pose proof (intersects_spec s other Hs Ho) as H.
  pose proof (intersects_spec other s Ho Hs) as H'.
  split; [exact H|]. split.
  - apply eq_true_iff_eq. rewrite H, H'.
    split; intros (f & Hf & Hg); exists f; split; assumption.
  - destruct (instance_inv s Hs) as [Hasc _].
    unfold intersection.
    rewrite (Sequence_of_ascending _ (filter_ascending _ _ Hasc)).
    split.
    + intros E. do 2 f_equal.
      destruct (filter (fun f => includes (frames other) f) (_frames s))
        as [|x t] eqn:Ef; [reflexivity|].
      assert (Hx : In x (filter (fun f => includes (frames other) f) (_frames s)))
        by (rewrite Ef; left; reflexivity).
      apply filter_In in Hx. destruct Hx as [Hx Hi]. apply includes_In in Hi.
      assert (T : intersects s other = true)
        by (apply H; exists x; split; assumption).
      congruence.
    + intros E. injection E as Ef.
      destruct (intersects s other) eqn:E1; [|reflexivity].
      destruct (proj1 H eq_refl) as (f & Hf & Hg).
      assert (Hx : In f (filter (fun f => includes (frames other) f) (_frames s)))
        by (apply filter_In; split; [exact Hf | apply includes_In, Hg]).
      rewrite Ef in Hx. contradiction.
Qed.

Lemma intersects_common_frame_witness :
  intersects sample_mixed sample_1_5 = true
  /\ intersects sample_mixed sample_1_5 = intersects sample_1_5 sample_mixed.
Proof.
  assert (Hs : instance sample_mixed)
    by (apply (I_Sequence (of_frames [7; -8; 1; -6; 2; -4; 3])); reflexivity).
  assert (Ho : instance sample_1_5)
    by (apply (I_Sequence (NumArgs 1 (Some 5%Q) None)); reflexivity).
  destruct (intersects_common_frame sample_mixed sample_1_5 Hs Ho) as (Hiff & Hsym & _).
  split; [|exact Hsym].
  apply Hiff. exists 1. split; [right; right; right; left; reflexivity | left; reflexivity].
Defined.

(** ** Arithmetic on frames: [offset] and [scale] *)

Lemma Math_trunc_Qeq (q : Q) (k : Z) : (q == inject_Z k)%Q -> Math_trunc q = k.
Proof.
  destruct q as [n d]. unfold Qeq, Math_trunc, Numeric_number, Math_trunc_num.
  cbn [Qnum Qden inject_Z]. intros E.
  replace n with (k * Z.pos d) by lia. apply Z.quot_mul. discriminate.
Qed.

Lemma Qabs_opp_eq (q : Q) : Qabs (- q) = Qabs q.
Proof. destruct q as [n d]. unfold Qabs, Qopp. cbn. rewrite Z.abs_opp. reflexivity. Qed.

Lemma fl_opp (q : Q) : (q < 0)%Q -> fl q = (- fl (- q))%Q.
Proof.
  intros Hq.
  assert (Hc : Qcompare q 0 = Lt) by (apply (proj1 (Qlt_alt _ _)); exact Hq).
  assert (Hc' : Qcompare (- q) 0 = Gt).
  { apply (proj1 (Qgt_alt _ _)). apply Qopp_lt_compat in Hq. exact Hq. }
  unfold fl. rewrite Hc, Hc', Qabs_opp_eq. reflexivity.
Qed.

(** Integers of magnitude below [2^53] are binary64 values. *)
Lemma fl_int (q : Q) (k : Z) :
  Z.abs k < 2 ^ 53 -> (q == inject_Z k)%Q -> (fl q == inject_Z k)%Q.
Proof.
  intros Hk Hq. destruct (Z.lt_trichotomy k 0) as [Hneg | [-> | Hpos]].
  - assert (Hlt : (q < 0)%Q) by (rewrite Hq; change (inject_Z k < inject_Z 0)%Q;
        rewrite <- Zlt_Qlt; exact Hneg).
    rewrite (fl_opp q Hlt).
    rewrite (fl_Z (- q) (- k)); [| lia | rewrite Hq, inject_Z_opp; reflexivity].
    rewrite inject_Z_opp. apply Qopp_involutive.
  - assert (Hc : Qcompare q 0 = Eq) by (apply (proj1 (Qeq_alt _ _)); exact Hq).
    unfold fl. rewrite Hc. reflexivity.
  - apply fl_Z; [lia | exact Hq].
Qed.

Lemma js_add_int (f d : Z) :
  Z.abs (f + d) < 2 ^ 53 -> Math_trunc (js_add (inject_Z f) (inject_Z d)) = f + d.
Proof.
  intros H. apply Math_trunc_Qeq. unfold js_add.
  apply fl_int; [exact H | rewrite inject_Z_plus; reflexivity].
Qed.

Lemma js_mul_int (f k : Z) :
  Z.abs (f * k) < 2 ^ 53 -> Math_trunc (js_mul (inject_Z f) (inject_Z k)) = f * k.
Proof.
  intros H. apply Math_trunc_Qeq. unfold js_mul.
  apply fl_int; [exact H | rewrite inject_Z_mult; reflexivity].
Qed.

Lemma ascending_map (g : Z -> Z) (l : list Z) :
  (forall x y, x < y -> g x < g y) -> ascending l -> ascending (map g l).
Proof.
  intros Hg. unfold ascending. induction 1 as [|x l Hl IH Hx]; simpl; constructor.
  - exact IH.
  - rewrite Forall_forall in *. intros z Hz. apply in_map_iff in Hz.
    destruct Hz as (y & <- & Hy). apply Hg, Hx, Hy.
Qed.

Lemma ascending_rev_map (g : Z -> Z) (l : list Z) :
  (forall x y, x < y -> g y < g x) -> ascending l -> ascending (rev (map g l)).
Proof.
  intros Hg. induction 1 as [|x l Hl IH Hx]; simpl; [constructor|].
  apply ascending_app. split; [exact IH|]. split; [repeat constructor|].
  intros a b Ha [<- | []]. apply in_rev, in_map_iff in Ha.
  destruct Ha as (y & <- & Hy). rewrite Forall_forall in Hx. apply Hg, Hx, Hy.
Qed.

Lemma sort_Set_canon (l l' : list Z) :
  ascending l' -> (forall z, In z l <-> In z l') -> sort (Set_ l) = l'.
Proof.
  intros Hl' H. apply ascending_ext; [apply sort_Set_ascending | exact Hl' |].
  intros z. rewrite sort_Set_In. apply H.
Qed.

Lemma sort_Set_length (l : list Z) :
  (List.length (sort (Set_ l)) <= List.length l)%nat.
Proof.
  apply NoDup_incl_length; [apply ascending_NoDup, sort_Set_ascending|].
  intros z. apply sort_Set_In.
Qed.

(** X10 ([offset]).  On a Sequence instance whose frames, before and after
    the shift, are integers that binary64 holds exactly, [offset] by an
    integer adds it to every frame, keeps order, length and chunk size, and
    is undone by the opposite offset. *)
Theorem offset_frames (d : Z) (s : SequenceT) :
  instance s ->
  (forall f, In f (frames s) -> Z.abs f < 2 ^ 53 /\ Z.abs (f + d) < 2 ^ 53) ->
  exists r,
    offset (inject_Z d) s = Ok r
    /\ frames r = map (fun f => f + d) (frames s)
    /\ chunkSize r = chunkSize s
    /\ offset (inject_Z (- d)) r = Ok s.
Proof.
  intros Hs Hb. apply instance_inv in Hs. destruct Hs as [Hasc Hc].
  assert (K : forall (e : Z) (fr : list Z) (c : Z),
             ascending fr -> 1 <= c ->
             (forall f, In f fr -> Z.abs (f + e) < 2 ^ 53) ->
             offset (inject_Z e) {| _frames := fr; _chunkSize := c |}
             = Ok {| _frames := map (fun f => f + e) fr; _chunkSize := c |}).
  { intros e fr c Ha H1 Hbd. unfold offset. cbn [_frames _chunkSize].
    rewrite Sequence_array. cbn [bind]. unfold setChunkSize. cbn [_frames].
    rewrite Z.max_r by exact H1. do 2 f_equal.
    rewrite map_map.
    rewrite (map_ext_in _ (fun f => f + e))
      by (intros f Hf; apply js_add_int, Hbd, Hf).
    apply sort_Set_id, ascending_map; [intros; lia | exact Ha]. }
  destruct s as [fr c]. unfold frames, chunkSize in *. cbn [_frames _chunkSize] in *.
  eexists. split; [apply K; [exact Hasc | exact Hc | intros f Hf; apply Hb, Hf]|].
  cbn [_frames _chunkSize]. split; [reflexivity|]. split; [reflexivity|].
  rewrite K.
  - do 2 f_equal. rewrite map_map. rewrite <- (map_id fr) at 2.
    apply map_ext. intros f. lia.
  - apply ascending_map; [intros; lia | exact Hasc].
  - exact Hc.
  - intros f Hf. apply in_map_iff in Hf. destruct Hf as (g & <- & Hg).
    replace (g + d + - d) with g by lia. apply Hb, Hg.
Qed.

Lemma offset_frames_witness :
  exists r,
    offset (inject_Z 2) sample_mixed = Ok r
    /\ frames r = [-6; -4; -2; 3; 4; 5; 9]
    /\ offset (inject_Z (-2)) r = Ok sample_mixed.
Proof.
  assert (Hs : instance sample_mixed)
    by (apply (I_Sequence (of_frames [7; -8; 1; -6; 2; -4; 3])); reflexivity).
  assert (Hb : forall f, In f (frames sample_mixed) ->
                         Z.abs f < 2 ^ 53 /\ Z.abs (f + 2) < 2 ^ 53).
  { intros f Hf. simpl in Hf.
    repeat (destruct Hf as [<- | Hf]; [split; reflexivity|]). contradiction. }
  destruct (offset_frames 2 sample_mixed Hs Hb) as (r & Hr & Hf & _ & Hback).
  exists r. split; [exact Hr|]. split; [rewrite Hf; reflexivity | exact Hback].
Defined.

(** X11 ([scale]).  On a Sequence instance whose scaled frames are integers
    that binary64 holds exactly, [scale] by an integer [k] gives the set of
    products: in the same order when [k] is positive, in reverse order when
    it is negative, and the single frame 0 when [k] is 0 and the sequence is
    not empty.  The result is never longer than the receiver and has its
    chunk size. *)
Theorem scale_frames (k : Z) (s : SequenceT) :
  instance s ->
  (forall f, In f (frames s) -> Z.abs (f * k) < 2 ^ 53) ->
  exists r,
    scale (inject_Z k) s = Ok r
    /\ (forall z, In z (frames r) <-> exists f, In f (frames s) /\ z = f * k)
    /\ (0 < k -> frames r = map (fun f => f * k) (frames s))
    /\ (k < 0 -> frames r = rev (map (fun f => f * k) (frames s)))
    /\ (k = 0 -> frames s <> [] -> frames r = [0])
    /\ length_ r <= length_ s
    /\ chunkSize r = chunkSize s.
Proof.
  intros Hs Hb. apply instance_inv in Hs. destruct Hs as [Hasc Hc].
  unfold scale. rewrite Sequence_array. cbn [bind]. eexists.
  split; [reflexivity|].
  unfold frames, chunkSize, length_, setChunkSize in *. cbn [_frames _chunkSize].
  assert (E : map Math_trunc
                (map (fun f => inject_Z (Math_trunc (js_mul (inject_Z f) (inject_Z k))))
                     (_frames s))
              = map (fun f => f * k) (_frames s)).
  { rewrite map_map. apply map_ext_in. intros f Hf.
    rewrite Math_trunc_inject_Z. apply js_mul_int, Hb, Hf. }
  rewrite E.
  assert (M : forall z, In z (map (fun f => f * k) (_frames s))
                        <-> exists f, In f (_frames s) /\ z = f * k).
  { intros z. rewrite in_map_iff. split; intros (f & A & B); exists f; auto. }
  repeat match goal with |- _ /\ _ => split end.
  - intros z. rewrite sort_Set_In. apply M.
  - intros Hk. apply sort_Set_id, ascending_map; [intros; nia | exact Hasc].
  - intros Hk. apply sort_Set_canon.
    + apply ascending_rev_map; [intros; nia | exact Hasc].
    + intros z. apply in_rev.
  - intros -> Hne. apply sort_Set_canon; [repeat constructor|].
    intros z. rewrite M. split.
    + intros (f & _ & ->). left. lia.
    + intros [<- | []]. destruct (_frames s) as [|x t]; [contradiction|].
      exists x. split; [left; reflexivity | lia].
  - apply Nat2Z.inj_le. etransitivity; [apply sort_Set_length|].
    rewrite length_map. reflexivity.
  - apply Z.max_r, Hc.
Qed.

Lemma scale_frames_witness :
  exists r,
    scale (inject_Z (-2)) sample_1_5 = Ok r
    /\ frames r = [-10; -8; -6; -4; -2].
Proof.
  assert (Hs : instance sample_1_5)
    by (apply (I_Sequence (NumArgs 1 (Some 5%Q) None)); reflexivity).
  assert (Hb : forall f, In f (frames sample_1_5) -> Z.abs (f * -2) < 2 ^ 53).
  { intros f Hf. simpl in Hf.
    repeat (destruct Hf as [<- | Hf]; [reflexivity|]). contradiction. }
  destruct (scale_frames (-2) sample_1_5 Hs Hb) as (r & Hr & _ & _ & Hneg & _).
  exists r. split; [exact Hr|]. rewrite Hneg by lia. reflexivity.
Defined.

(** ** [fill] and [step] *)

Lemma fill_unfold (st : Q) (s : SequenceT) (a b : Z) :
  first s = Some a -> last_ s = Some b -> a <= b ->
  fill st s =
  Ok {| _frames := range_loop (Z.to_nat (b - a + 1)) a b (Z.max 1 (Math_trunc st));
        _chunkSize := Z.max 1 (_chunkSize s) |}.
Proof.
  intros Ha Hb Hab. unfold fill. rewrite Ha, Hb. cbn [option_map].
  unfold Sequence, _flatten. cbn [bind]. unfold setChunkSize. cbn [_frames].
  rewrite _range_unfold, !Math_trunc_inject_Z.
  rewrite Z.min_l, Z.max_r by exact Hab. reflexivity.
Qed.

Lemma first_last_of_nonempty (s : SequenceT) :
  instance s -> frames s <> [] ->
  exists a b,
    first s = Some a /\ last_ s = Some b /\ a <= b
    /\ In a (frames s) /\ In b (frames s)
    /\ forall z, In z (frames s) -> a <= z <= b.
Proof.
  intros Hs Hne. apply instance_inv in Hs. destruct Hs as [Hasc _].
  unfold first, last_, frames in *.
  destruct (_frames s) as [|x t] eqn:E; [contradiction|].
  exists x, (last (x :: t) 0). rewrite last_slice by discriminate.
  assert (Hl : In (last (x :: t) 0) (x :: t)) by (apply last_In; discriminate).
  split; [reflexivity|]. split; [reflexivity|].
  split; [apply (ascending_head_min x t _ Hasc Hl)|].
  split; [left; reflexivity|]. split; [exact Hl|].
  intros z Hz. split.
  - apply (ascending_head_min x t z Hasc Hz).
  - apply (ascending_last_max (x :: t)); assumption.
Qed.

Lemma range_loop_unit_In (a b z : Z) :
  In z (range_loop (Z.to_nat (b - a + 1)) a b 1) <-> a <= z <= b.
Proof.
  split.
  - intros H. apply range_loop_sound in H. destruct H as (k & Hk & -> & Hle). lia.
  - intros H. replace z with (a + (z - a) * 1) by lia.
    apply range_loop_complete; lia.
Qed.



Lemma range_loop_closed (a b stepVal : Z) :
  1 <= stepVal -> a <= b ->
  range_loop (Z.to_nat (b - a + 1)) a b stepVal =
  map (fun k => a + Z.of_nat k * stepVal) (seq 0 (S (Z.to_nat ((b - a) / stepVal)))).
Proof.
  intros Hs Hab.
  assert (Hq : 0 <= (b - a) / stepVal) by (apply Z.div_pos; lia).
  assert (Hm := Z.mul_div_le (b - a) stepVal ltac:(lia)).
  assert (Hm' := Z.mul_succ_div_gt (b - a) stepVal ltac:(lia)).
  apply range_loop_count; [assumption | rewrite Z2Nat.id by assumption; lia |].
  apply Nat2Z.inj_lt. rewrite Z2Nat.id by assumption. rewrite Z2Nat.id by lia.
  nia.
Qed.

Lemma constant_gap_isProgression (g : Z) (l : list Z) :
  constant_gap g l -> _isProgression l = true.
Proof.
  intros H. apply _isProgression_spec. destruct l as [|x [|y t]]; [exact I | exact I |].
  destruct H as [Hxy Hg]. rewrite Hxy. split; [exact Hxy | exact Hg].
Qed.

Lemma step_constant_gap (s : SequenceT) (g : Z) :
  ascending (_frames s) -> step s = Some g ->
  constant_gap g (_frames s) /\ 1 <= g.
Proof.
  intros Hasc. unfold step.
  destruct (_isProgression (_frames s)) eqn:E; [|discriminate].
  apply _isProgression_spec in E.
  destruct (_frames s) as [|x [|y t]]; cbn [List.length Nat.ltb Nat.leb nth].
  - intros [= <-]. split; [exact I | lia].
  - intros [= <-]. split; [exact I | lia].
  - intros [= <-]. split; [exact E|].
    inversion Hasc as [|? ? _ Hx]; subst. inversion Hx; subst. lia.
Qed.



(** ** The [progressions] method *)

Lemma mapM_wrap (L : list (list Z)) :
  mapM (fun p => Sequence (of_frames p)) L = Ok (map wrap L).
Proof.
  induction L as [|p L IH]; [reflexivity|].
  cbn [mapM map]. rewrite Sequence_of_frames, IH. reflexivity.
Qed.

Lemma progressions_eq (s : SequenceT) :
  progressions s = Ok (map wrap (_progressions (_frames s))).
Proof. apply mapM_wrap. Qed.

Lemma _progressions_of_run (r : list Z) : run r -> _progressions r = [r].
Proof.
  intros (Hne & Hp & Hasc). symmetry.
  apply (greedy_unique [r]); [apply greedy_one; assumption | |].
  - apply _progressions_greedy, Hne.
  - rewrite _progressions_concat, sort_ascending_id by exact Hasc.
    simpl. apply app_nil_r.
Qed.

Lemma wrap_ascending (r : list Z) :
  ascending r -> wrap r = {| _frames := r; _chunkSize := 1 |}.
Proof. intros H. unfold wrap. rewrite sort_Set_id by exact H. reflexivity. Qed.

Lemma spec_of_run (r : list Z) : run r -> _spec r = spec_of_progression r.
Proof.
  intros Hr. unfold _spec. rewrite (_progressions_of_run r Hr).
  destruct Hr as (Hne & _). destruct r; [contradiction | reflexivity].
Qed.

(** X14 ([progressions]).  On a non-empty Sequence instance,
    [progressions()] returns Sequences that are non-empty progressions,
    whose frames concatenated in order are the frames of the receiver, and
    whose specs joined by commas are the receiver's spec.  There is exactly
    one of them when, and only when, the receiver is a progression, and each
    of them is its own only progression. *)
Theorem progressions_method (s : SequenceT) :
  instance s -> frames s <> [] ->
  exists ps,
    progressions s = Ok ps
    /\ List.concat (map frames ps) = frames s
    /\ Forall (fun p => frames p <> [] /\ isProgression p = true
                        /\ progressions p = Ok [p]) ps
    /\ spec s = join "," (map spec ps)
    /\ (List.length ps = 1%nat <-> isProgression s = true).
Proof.
  intros Hs Hne. destruct (instance_inv s Hs) as [Hasc _].
  change (frames s) with (_frames s) in *.
  destruct (_progressions_runs (_frames s) Hasc Hne) as [Hruns Hcat].
  assert (Hfr : map frames (map wrap (_progressions (_frames s)))
                = _progressions (_frames s))
    by (apply wrap_frames; rewrite Hcat; exact Hasc).
  exists (map wrap (_progressions (_frames s))).
  split; [apply progressions_eq|]. rewrite Hfr. split; [exact Hcat|].
  split; [|split].
  - apply Forall_forall. intros p Hp. apply in_map_iff in Hp.
    destruct Hp as (r & <- & Hr). rewrite Forall_forall in Hruns.
    specialize (Hruns r Hr). pose proof Hruns as (Hrne & Hrp & Hra).
    rewrite (wrap_ascending r Hra). unfold frames, isProgression. cbn [_frames].
    split; [exact Hrne|]. split; [exact Hrp|].
    rewrite progressions_eq. cbn [_frames].
    rewrite (_progressions_of_run r Hruns). cbn [map].
    rewrite (wrap_ascending r Hra). reflexivity.
  - unfold spec. unfold _spec at 1.
    destruct (_frames s) as [|x t] eqn:E; [contradiction|].
    cbn [List.length Nat.eqb]. f_equal. rewrite map_map.
    apply map_ext_in. intros r Hr. rewrite Forall_forall in Hruns.
    specialize (Hruns r Hr). pose proof Hruns as (_ & _ & Hra).
    rewrite (wrap_ascending r Hra). cbn [_frames]. symmetry.
    apply spec_of_run, Hruns.
  - rewrite length_map. unfold isProgression. split.
    + intros Hlen. destruct (_progressions (_frames s)) as [|r [|r' G]];
        try discriminate.
      simpl in Hcat. rewrite app_nil_r in Hcat. subst r.
      inversion Hruns as [|? ? (_ & Hp & _) _]; subst. exact Hp.
    + intros Hp. rewrite (_progressions_of_run (_frames s)); [reflexivity|].
      split; [exact Hne|]. split; assumption.
Qed.

Lemma progressions_method_witness :
  exists ps,
    progressions sample_mixed = Ok ps
    /\ map frames ps = [[-8; -6; -4]; [1; 2; 3]; [7]]
    /\ spec sample_mixed = join "," (map spec ps).
Proof.
  assert (Hs : instance sample_mixed)
    by (apply (I_Sequence (of_frames [7; -8; 1; -6; 2; -4; 3])); reflexivity).
  assert (Hne : frames sample_mixed <> []) by discriminate.
  destruct (progressions_method sample_mixed Hs Hne) as (ps & Hps & _ & _ & Hspec & _).
  exists ps. split; [exact Hps|]. split; [|exact Hspec].
  assert (E : Ok ps = Ok (map wrap [[-8; -6; -4]; [1; 2; 3]; [7]]))
    by (rewrite <- Hps; reflexivity).
  injection E as ->. reflexivity.
Defined.

(** ** More on [chunks] *)

(** With [enforceProgressions], the open chunk extended by the next frame
    to visit is a progression throughout the loop. *)
Lemma chunk_lists_progressions (size : Z) (arr : list Z) (rest : list Z) :
  forall (pre chunk : list Z),
    arr = pre ++ rest ->
    match rest with
    | [] => True
    | f :: _ => _isProgression (chunk ++ [f]) = true
    end ->
    Forall (fun c => _isProgression c = true)
           (chunk_lists true size arr rest (List.length pre) chunk).
Proof.
  induction rest as [|f rest IH]; intros pre chunk Harr Hp; [constructor|].
  cbn [chunk_lists].
  assert (Harr' : arr = (pre ++ [f]) ++ rest)
    by (rewrite <- app_assoc; exact Harr).
  assert (HS : S (List.length pre) = List.length (pre ++ [f]))
    by (rewrite length_app; simpl; lia).
  destruct (closes true size arr (chunk ++ [f]) (List.length pre)) eqn:Hc.
  - constructor; [exact Hp|]. rewrite HS. apply IH; [exact Harr'|].
    destruct rest; [exact I | reflexivity].
  - rewrite HS. apply IH; [exact Harr'|].
    destruct rest as [|f' rest']; [exact I|].
    unfold closes in Hc. apply orb_false_iff in Hc. destruct Hc as [_ Hc].
    cbn [andb] in Hc. apply negb_false_iff in Hc.
    replace (nth (List.length pre + 1) arr 0) with f' in Hc; [exact Hc|].
    rewrite Harr, app_nth2 by lia.
    replace (List.length pre + 1 - List.length pre)%nat with 1%nat by lia.
    reflexivity.
Qed.

(** X15 ([chunks] with [enforceProgressions]).  On a Sequence instance,
    every chunk that [chunks(true)] (the default) returns is a non-empty
    progression, so its [step()] is defined. *)
Theorem chunks_are_progressions (s : SequenceT) :
  instance s ->
  exists cs,
    chunks true s = Ok cs
    /\ Forall (fun c => frames c <> [] /\ isProgression c = true
                        /\ exists g, step c = Some g) cs.
Proof.
  intros Hs. destruct (instance_inv s Hs) as [Hasc Hsize].
  set (L := chunk_lists true (_chunkSize s) (_frames s) (_frames s) 0 []).
  assert (Hconcat : List.concat L = _frames s)
    by (apply chunk_lists_concat; [reflexivity | reflexivity]).
  assert (Hch : chunked true (_chunkSize s) L)
    by (apply (chunk_lists_chunked _ _ _ [] (_frames s) []); [reflexivity | simpl; lia]).
  assert (Hpr : Forall (fun c => _isProgression c = true) L).
  { apply (chunk_lists_progressions _ _ (_frames s) [] []); [reflexivity|].
    destruct (_frames s); [exact I | reflexivity]. }
  assert (Hfr : map frames (map wrap L) = L)
    by (apply wrap_frames; rewrite Hconcat; exact Hasc).
  exists (map wrap L). rewrite chunks_eq. fold L. split; [reflexivity|].
  apply Forall_forall. intros c Hc.
  assert (Hin : In (frames c) L) by (rewrite <- Hfr; apply in_map, Hc).
  apply chunked_Forall in Hch. rewrite Forall_forall in Hch, Hpr.
  destruct (Hch _ Hin) as [Hne _]. specialize (Hpr _ Hin).
  split; [exact Hne|]. split; [exact Hpr|].
  unfold step. change (_frames c) with (frames c). rewrite Hpr.
  destruct (1 <? List.length (frames c))%nat; eexists; reflexivity.
Qed.

Lemma chunks_are_progressions_witness :
  exists cs,
    chunks true (setChunkSize 4 sample_mixed) = Ok cs
    /\ map frames cs = [[-8; -6; -4]; [1; 2; 3]; [7]].
Proof.
  assert (Hs : instance (setChunkSize 4 sample_mixed)).
  { apply I_setChunkSize.
    apply (I_Sequence (of_frames [7; -8; 1; -6; 2; -4; 3])). reflexivity. }
  destruct (chunks_are_progressions _ Hs) as (cs & Hcs & _).
  exists cs. split; [exact Hcs|].
  assert (E : Ok cs = Ok (map wrap [[-8; -6; -4]; [1; 2; 3]; [7]]))
    by (rewrite <- Hcs; reflexivity).
  injection E as ->. reflexivity.
Defined.

Lemma chunked_greedy (size : Z) (L : list (list Z)) :
  chunked true size L ->
  Forall (fun c => _isProgression c = true) L ->
  Z.of_nat (List.length (List.concat L)) <= size ->
  L <> [] -> greedy_runs L.
Proof.
  induction 1 as [|c Hne Hlen|c f c' cs Hne Hlen Hor Hch IH];
    intros Hpr Htot HL.
  - contradiction.
  - inversion Hpr; subst. apply greedy_one; assumption.
  - inversion Hpr as [|? ? Hc Hpr']; subst.
    rewrite concat_cons, length_app in Htot.
    assert (Hpos : (0 < List.length (List.concat ((f :: c') :: cs)))%nat)
      by (rewrite concat_cons, length_app; simpl; lia).
    apply greedy_cons; try assumption.
    + destruct Hor as [Hfull | [_ Hp]]; [lia | exact Hp].
    + apply IH; [exact Hpr' | lia | discriminate].
Qed.

(** X16 ([chunks] and [progressions]).  On a non-empty Sequence instance
    whose chunk size is at least its length, [chunks(true)] returns the
    same Sequences as [progressions()], and [chunks(false)] returns the
    whole sequence as a single chunk. *)
Theorem chunks_large_size (s : SequenceT) :
  instance s -> frames s <> [] -> length_ s <= chunkSize s ->
  chunks true s = progressions s
  /\ chunks false s = Ok [{| _frames := frames s; _chunkSize := 1 |}].
Proof.
  intros Hs Hne Hbig. destruct (instance_inv s Hs) as [Hasc Hsize].
  unfold frames, length_, chunkSize in *. split.
  - set (L := chunk_lists true (_chunkSize s) (_frames s) (_frames s) 0 []).
    assert (Hconcat : List.concat L = _frames s)
      by (apply chunk_lists_concat; [reflexivity | reflexivity]).
    assert (Hch : chunked true (_chunkSize s) L)
      by (apply (chunk_lists_chunked _ _ _ [] (_frames s) []);
          [reflexivity | simpl; lia]).
    assert (Hpr : Forall (fun c => _isProgression c = true) L).
    { apply (chunk_lists_progressions _ _ (_frames s) [] []); [reflexivity|].
      destruct (_frames s); [exact I | reflexivity]. }
    rewrite chunks_eq, progressions_eq. fold L. do 2 f_equal.
    apply greedy_unique.
    + apply (chunked_greedy (_chunkSize s)); try assumption.
      * rewrite Hconcat. exact Hbig.
      * intros E. rewrite E in Hconcat. simpl in Hconcat. congruence.
    + apply _progressions_greedy, Hne.
    + rewrite Hconcat, _progressions_concat, sort_ascending_id by exact Hasc.
      reflexivity.
  - set (L := chunk_lists false (_chunkSize s) (_frames s) (_frames s) 0 []).
    assert (Hconcat : List.concat L = _frames s)
      by (apply chunk_lists_concat; [reflexivity | reflexivity]).
    assert (Hch : chunked false (_chunkSize s) L)
      by (apply (chunk_lists_chunked _ _ _ [] (_frames s) []);
          [reflexivity | simpl; lia]).
    rewrite chunks_eq. fold L.
    assert (HL : L = [_frames s]).
    { destruct Hch as [|c Hc Hlen|c f c' cs Hc Hlen Hor Hch].
      - simpl in Hconcat. congruence.
      - simpl in Hconcat. rewrite app_nil_r in Hconcat. congruence.
      - exfalso. rewrite <- Hconcat in Hbig.
        rewrite concat_cons, length_app in Hbig.
        assert (Hpos : (0 < List.length (List.concat ((f :: c') :: cs)))%nat)
          by (rewrite concat_cons, length_app; simpl; lia).
        destruct Hor as [Hfull | [Hf _]]; [lia | discriminate]. }
    rewrite HL. cbn [map]. rewrite (wrap_ascending _ Hasc). reflexivity.
Qed.

Lemma chunks_large_size_witness :
  chunks true (setChunkSize 7 sample_mixed) = progressions (setChunkSize 7 sample_mixed)
  /\ chunks false (setChunkSize 7 sample_mixed) = Ok [sample_mixed].
Proof.
  apply (chunks_large_size (setChunkSize 7 sample_mixed)).
  - apply I_setChunkSize.
    apply (I_Sequence (of_frames [7; -8; 1; -6; 2; -4; 3])). reflexivity.
  - discriminate.
  - reflexivity.
Defined.

(** Without [enforceProgressions] only a full chunk is followed by another
    one, so the chunks are the consecutive slices of [size] frames. *)
Lemma chunked_slices (size : nat) (L : list (list Z)) :
  chunked false (Z.of_nat size) L ->
  forall k, (k < List.length L)%nat ->
    nth_error L k = Some (firstn size (skipn (k * size) (List.concat L))).
Proof.
  induction 1 as [|c Hne Hlen|c f c' cs Hne Hlen Hor Hch IH]; intros k Hk.
  - simpl in Hk. lia.
  - destruct k as [|k]; [|simpl in Hk; lia].
    cbn [nth_error Nat.mul skipn List.concat]. rewrite app_nil_r.
    rewrite firstn_all2 by lia. reflexivity.
  - assert (Hfull : List.length c = size)
      by (destruct Hor as [Hfull | [Hf _]]; [lia | discriminate]).
    rewrite concat_cons. destruct k as [|k].
    + cbn [nth_error Nat.mul skipn]. rewrite firstn_app, Hfull, Nat.sub_diag.
      rewrite <- Hfull at 1. rewrite firstn_all. cbn [firstn]. rewrite app_nil_r.
      reflexivity.
    + cbn [nth_error].
      replace (S k * size)%nat with (List.length c + k * size)%nat by (simpl; lia).
      rewrite skipn_app, skipn_all2 by lia.
      replace (List.length c + k * size - List.length c)%nat with (k * size)%nat by lia.
      cbn [app]. apply IH. simpl in Hk |- *. lia.
Qed.

Lemma chunked_count (size : nat) (L : list (list Z)) :
  (0 < size)%nat -> chunked false (Z.of_nat size) L ->
  Z.of_nat (List.length L)
  = (Z.of_nat (List.length (List.concat L)) + Z.of_nat size - 1) / Z.of_nat size.
Proof.
  intros Hpos. induction 1 as [|c Hne Hlen|c f c' cs Hne Hlen Hor Hch IH].
  - simpl. symmetry. apply Z.div_small. lia.
  - cbn [List.concat]. rewrite app_nil_r.
    assert (0 < List.length c)%nat by (destruct c; [contradiction | simpl; lia]).
    change (Z.of_nat (List.length [c])) with 1.
    apply Z.div_unique with (r := Z.of_nat (List.length c) - 1); lia.
  - assert (Hfull : List.length c = size)
      by (destruct Hor as [Hfull | [Hf _]]; [lia | discriminate]).
    rewrite concat_cons, length_app, Hfull.
    change (List.length (c :: (f :: c') :: cs)) with (S (List.length ((f :: c') :: cs))).
    rewrite Nat2Z.inj_succ, IH, Nat2Z.inj_add.
    replace (Z.of_nat size + Z.of_nat (List.length (List.concat ((f :: c') :: cs)))
             + Z.of_nat size - 1)
      with (Z.of_nat (List.length (List.concat ((f :: c') :: cs))) + Z.of_nat size - 1
            + 1 * Z.of_nat size) by lia.
    rewrite Z.div_add by lia. lia.
Qed.

Lemma map_nth_error_frames (cs : list SequenceT) (k : nat) :
  nth_error (map frames cs) k = option_map frames (nth_error cs k).
Proof. apply nth_error_map. Qed.

(** X17 ([chunks] without [enforceProgressions]).  On a Sequence instance,
    [chunks(false)] cuts the frames into consecutive slices of [chunkSize()]
    frames: chunk [k] holds the frames at indices [k * chunkSize()] up to
    [(k + 1) * chunkSize() - 1] (the last chunk what is left), and there are
    [ceil(length() / chunkSize())] chunks. *)
Theorem chunks_fixed_size (s : SequenceT) :
  instance s ->
  exists cs,
    chunks false s = Ok cs
    /\ Z.of_nat (List.length cs) = (length_ s + chunkSize s - 1) / chunkSize s
    /\ forall k, (k < List.length cs)%nat ->
         option_map frames (nth_error cs k)
         = Some (firstn (Z.to_nat (chunkSize s))
                        (skipn (k * Z.to_nat (chunkSize s)) (frames s))).
Proof.
  intros Hs. destruct (instance_inv s Hs) as [Hasc Hsize].
  set (L := chunk_lists false (_chunkSize s) (_frames s) (_frames s) 0 []).
  assert (Hconcat : List.concat L = _frames s)
    by (apply chunk_lists_concat; [reflexivity | reflexivity]).
  assert (Hch : chunked false (_chunkSize s) L)
    by (apply (chunk_lists_chunked _ _ _ [] (_frames s) []); [reflexivity | simpl; lia]).
  assert (Hfr : map frames (map wrap L) = L)
    by (apply wrap_frames; rewrite Hconcat; exact Hasc).
  unfold chunkSize, length_. change (frames s) with (_frames s).
  rewrite <- (Z2Nat.id (_chunkSize s)) in Hch by lia.
  exists (map wrap L). rewrite chunks_eq. fold L. split; [reflexivity|].
  rewrite length_map. split.
  - rewrite (chunked_count (Z.to_nat (_chunkSize s)) L) by (try lia; exact Hch).
    rewrite Hconcat, Z2Nat.id by lia. reflexivity.
  - intros k Hk. rewrite <- (map_nth_error_frames (map wrap L) k), Hfr.
    rewrite <- Hconcat. apply chunked_slices; assumption.
Qed.

Lemma chunks_fixed_size_witness :
  exists cs,
    chunks false (setChunkSize 3 sample_mixed) = Ok cs
    /\ map frames cs = [[-8; -6; -4]; [1; 2; 3]; [7]]
    /\ Z.of_nat (List.length cs) = (7 + 3 - 1) / 3.
Proof.
  assert (Hs : instance (setChunkSize 3 sample_mixed)).
  { apply I_setChunkSize.
    apply (I_Sequence (of_frames [7; -8; 1; -6; 2; -4; 3])). reflexivity. }
  destruct (chunks_fixed_size _ Hs) as (cs & Hcs & Hlen & _).
  exists cs. split; [exact Hcs|]. split; [|exact Hlen].
  assert (E : Ok cs = Ok (map wrap [[-8; -6; -4]; [1; 2; 3]; [7]]))
    by (rewrite <- Hcs; reflexivity).
  injection E as ->. reflexivity.
Defined.

(** ** [intersectingChunks] *)

(** X18 ([intersectingChunks]).  On Sequence instances,
    [intersectingChunks(other)] returns, in order, exactly those chunks of
    [chunks()] that share a frame with [other]; every frame common to the
    receiver and [other] lies in one of them; and the result is empty
    exactly when the receiver does not intersect [other]. *)
Theorem intersectingChunks_spec (s other : SequenceT) :
  instance s -> instance other ->
  exists cs all,
    intersectingChunks s other = Ok cs
    /\ chunks true s = Ok all
    /\ cs = filter (fun c => intersects c other) all
    /\ (forall c, In c cs
                  <-> In c all /\ exists f, In f (frames c) /\ In f (frames other))
    /\ (forall f, In f (frames s) -> In f (frames other) ->
                  exists c, In c cs /\ In f (frames c))
    /\ (cs = [] <-> intersects s other = false).
Proof.
  intros Hs Ho. destruct (instance_inv s Hs) as [Hasc Hsize].
  set (L := chunk_lists true (_chunkSize s) (_frames s) (_frames s) 0 []).
  assert (Hconcat : List.concat L = _frames s)
    by (apply chunk_lists_concat; [reflexivity | reflexivity]).
  assert (Hfr : map frames (map wrap L) = L)
    by (apply wrap_frames; rewrite Hconcat; exact Hasc).
  assert (Hall : chunks true s = Ok (map wrap L)) by apply chunks_eq.
  assert (Hmem : forall c,
             In c (filter (fun c => intersects c other) (map wrap L))
             <-> In c (map wrap L)
                 /\ exists f, In f (frames c) /\ In f (frames other)).
  { intros c. rewrite filter_In. split; intros [Hin Hc]; (split; [exact Hin|]).
    - apply (intersects_spec c other); [|exact Ho|exact Hc].
      apply (I_chunks true s (map wrap L) c Hs Hall Hin).
    - apply (intersects_spec c other); [|exact Ho|exact Hc].
      apply (I_chunks true s (map wrap L) c Hs Hall Hin). }
  assert (Hcov : forall f, In f (frames s) -> In f (frames other) ->
                   exists c, In c (filter (fun c => intersects c other) (map wrap L))
                             /\ In f (frames c)).
  { intros f Hf Hg. change (frames s) with (_frames s) in Hf.
    rewrite <- Hconcat, <- Hfr in Hf. apply in_concat in Hf.
    destruct Hf as (l & Hl & Hfl). apply in_map_iff in Hl.
    destruct Hl as (c & <- & Hc). exists c. split; [|exact Hfl].
    apply Hmem. split; [exact Hc|]. exists f. split; assumption. }
  exists (filter (fun c => intersects c other) (map wrap L)), (map wrap L).
  split; [unfold intersectingChunks; rewrite Hall; reflexivity|].
  split; [exact Hall|]. split; [reflexivity|]. split; [exact Hmem|].
  split; [exact Hcov|].
  pose proof (intersects_spec s other Hs Ho) as Hi. split.
  - intros E. destruct (intersects s other) eqn:E1; [|reflexivity].
    destruct (proj1 Hi eq_refl) as (f & Hf & Hg).
    destruct (Hcov f Hf Hg) as (c & Hc & _). rewrite E in Hc. contradiction.
  - intros E.
    destruct (filter (fun c => intersects c other) (map wrap L)) as [|c t] eqn:Ef;
      [reflexivity|].
    destruct (proj1 (Hmem c) (or_introl eq_refl)) as [Hin (f & Hf & Hg)].
    assert (T : intersects s other = true).
    { apply Hi. exists f. split; [|exact Hg].
      change (frames s) with (_frames s). rewrite <- Hconcat, <- Hfr.
      apply in_concat. exists (frames c). split; [apply in_map, Hin | exact Hf]. }
    congruence.
Qed.

Lemma intersectingChunks_spec_witness :
  exists cs,
    intersectingChunks (setChunkSize 3 sample_1_10)
                       {| _frames := [1; 10]; _chunkSize := 1 |} = Ok cs
    /\ map frames cs = [[1; 2; 3]; [10]].
Proof.
  assert (Hs : instance (setChunkSize 3 sample_1_10)).
  { apply I_setChunkSize. apply (I_Sequence (StrArg "1-10")). reflexivity. }
  assert (Ho : instance {| _frames := [1; 10]; _chunkSize := 1 |})
    by (apply canonical_instance; repeat constructor).
  destruct (intersectingChunks_spec _ _ Hs Ho) as (cs & all & Hcs & _).
  exists cs. split; [exact Hcs|].
  assert (E : Ok cs = Ok (map wrap [[1; 2; 3]; [10]]))
    by (rewrite <- Hcs; reflexivity).
  injection E as ->. reflexivity.
Defined.

(** ** Spec strings: tokens as a set, separators at the ends *)

Lemma reduce_flatten_all (toks : list string) (accum : list Z) :
  Forall (fun tok => match_token tok <> None) toks ->
  reduce flatten_token toks accum
  = Ok (accum ++ List.concat (map frames_of_token toks)).
Proof.
  intros H. revert accum. induction H as [|tok toks Htok _ IH]; intros accum.
  - simpl. rewrite app_nil_r. reflexivity.
  - cbn [reduce map List.concat]. unfold flatten_token at 1, frames_of_token at 1.
    destruct (match_token tok) as [m|]; [|contradiction].
    cbn [bind]. rewrite IH, app_assoc. reflexivity.
Qed.

Lemma match_token_None_dec (tok : string) :
  {match_token tok = None} + {match_token tok <> None}.
Proof. destruct (match_token tok); [right; discriminate | left; reflexivity]. Qed.



Lemma split_go_trailing (pre : string) (c : ascii) :
  is_sep c = true ->
  forall b,
    if b : bool then In "" (split_go true (pre ++ String c ""))
    else In "" (tl (split_go false (pre ++ String c ""))).
Proof.
  intros Hc. induction pre as [|d pre IH]; intros b.
  - cbn [append split_go]. rewrite Hc. destruct b; left; reflexivity.
  - cbn [append split_go]. destruct (is_sep d).
    + destruct b; [apply (IH true) | cbn [tl]; apply (IH true)].
    + specialize (IH false). pose proof (split_go_nonempty false (pre ++ String c "")) as Hne.
      destruct (split_go false (pre ++ String c "")) as [|piece pieces];
        [contradiction|].
      cbn [tl] in *. destruct b; [right; exact IH | exact IH].
Qed.



Lemma spec_empty_iff (l : list Z) : ascending l -> (_spec l = "" <-> l = []).
Proof.
  intros Hasc. split; [|intros ->; reflexivity].
  intros E. destruct l as [|x t]; [reflexivity|]. exfalso.
  pose proof (spec_roundtrip (x :: t) Hasc ltac:(discriminate)) as H.
  rewrite E in H. discriminate H.
Qed.



(** ** [subsample] with a count that divides the length *)

Lemma Qfloor_div2 (m : Z) : Qfloor (inject_Z m / 2) = m / 2.
Proof. change 2%Q with (inject_Z 2). rewrite <- Zdiv_Qdiv. reflexivity. Qed.

(** When the gap is the integer [g] and the position is [(2 i + 1) g / 2],
    the loop reads the middle frames of consecutive blocks of [g] frames. *)
Lemma subsample_loop_even (fr : list Z) (gap : Q) (g : Z) (k : nat) :
  forall (i : nat) (pos : Q),
    1 <= g ->
    (gap == inject_Z g)%Q ->
    (pos == inject_Z ((2 * Z.of_nat i + 1) * g) / 2)%Q ->
    (2 * Z.of_nat (i + k) + 1) * g < 2 ^ 53 ->
    subsample_loop k pos gap fr
    = map (fun j => nth (j * Z.to_nat g + Z.to_nat (g / 2)) fr 0) (seq i k).
Proof.
  induction k as [|k IH]; intros i pos Hg Hgap Hpos Hbound; [reflexivity|].
  cbn [subsample_loop seq map]. f_equal.
  - unfold Math_floor. rewrite (Qfloor_comp _ _ Hpos), Qfloor_div2.
    f_equal.
    replace ((2 * Z.of_nat i + 1) * g) with (Z.of_nat i * g * 2 + g) by lia.
    rewrite Z.div_add_l by lia.
    assert (0 <= g / 2) by (apply Z.div_pos; lia).
    rewrite Z2Nat.inj_add, Z2Nat.inj_mul, Nat2Z.id by lia. reflexivity.
  - apply IH; [assumption | assumption | | lia].
    unfold js_add. apply fl_half; [nia|].
    rewrite Hpos, Hgap.
    replace ((2 * Z.of_nat (S i) + 1) * g) with ((2 * Z.of_nat i + 1) * g + 2 * g) by lia.
    rewrite !inject_Z_plus, !inject_Z_mult.
    change (inject_Z 2) with 2%Q. field.
Qed.

Lemma ascending_nth (l : list Z) :
  ascending l ->
  forall i j, (i < j < List.length l)%nat -> nth i l 0 < nth j l 0.
Proof.
  induction 1 as [|x l Hl IH Hx]; intros i j Hij; [simpl in Hij; lia|].
  destruct j as [|j]; [lia|]. cbn [nth]. destruct i as [|i].
  - rewrite Forall_forall in Hx. apply Hx, nth_In. simpl in Hij. lia.
  - apply IH. simpl in Hij. lia.
Qed.

Lemma ascending_picks (l : list Z) (idx : nat -> nat) (k : nat) :
  ascending l ->
  forall i,
    (forall a b, (a < b)%nat -> (idx a < idx b)%nat) ->
    (forall j, (j < i + k)%nat -> (idx j < List.length l)%nat) ->
    ascending (map (fun j => nth (idx j) l 0) (seq i k)).
Proof.
  intros Hasc. induction k as [|k IH]; intros i Hmono Hin; [constructor|].
  cbn [seq map]. constructor.
  - apply IH; [exact Hmono|]. intros j Hj. apply Hin. lia.
  - apply Forall_forall. intros z Hz. apply in_map_iff in Hz.
    destruct Hz as (j & <- & Hj). apply in_seq in Hj.
    apply ascending_nth; [exact Hasc|]. split; [apply Hmono; lia | apply Hin; lia].
Qed.

(** X22 ([subsample] with a count that divides the length).  On a Sequence
    instance whose length is [count] times [g] (and below 2^32),
    [subsample(count)] returns exactly [count] frames: the frames at indices
    [i * g + floor(g / 2)] for [i = 0 .. count - 1], that is the middle of
    each of the [count] consecutive blocks of [g] frames, all of them frames
    of the receiver. *)
Theorem subsample_even (count g : Z) (s : SequenceT) :
  instance s ->
  1 <= count -> 1 <= g ->
  length_ s = count * g -> length_ s < 2 ^ 32 ->
  exists r,
    subsample count s = Ok r
    /\ frames r = map (fun i => nth (i * Z.to_nat g + Z.to_nat (g / 2)) (frames s) 0)
                      (seq 0 (Z.to_nat count))
    /\ length_ r = count
    /\ (forall z, In z (frames r) -> In z (frames s)).
Proof.
  intros Hs Hcount Hg Hlen H32. destruct (instance_inv s Hs) as [Hasc _].
  unfold length_, frames in *. unfold subsample.
  set (n := Z.of_nat (List.length (_frames s))) in *.
  assert (H53 : 2 ^ 32 * 4 < 2 ^ 53) by reflexivity.
  assert (Hcn : count <= n) by nia.
  replace (Z.min (Z.max 1 count) n) with count by lia.
  assert (Hgap : (js_div (inject_Z n) (inject_Z count) == inject_Z g)%Q).
  { unfold js_div. apply fl_Z; [nia|]. rewrite Hlen, inject_Z_mult.
    field. intros H0. unfold Qeq in H0. simpl in H0. lia. }
  assert (Hhalf : 0 <= g / 2 /\ 2 * (g / 2) <= g)
    by (split; [apply Z.div_pos; lia | apply Z.mul_div_le; lia]).
  assert (Hidx : forall j, (j < Z.to_nat count)%nat ->
                   (j * Z.to_nat g + Z.to_nat (g / 2) < List.length (_frames s))%nat).
  { intros j Hj. apply Nat2Z.inj_lt. fold n.
    rewrite Nat2Z.inj_add, Nat2Z.inj_mul, !Z2Nat.id by lia.
    assert (Z.of_nat j < count) by lia. nia. }
  erewrite (subsample_loop_even _ _ g _ 0); [| exact Hg | exact Hgap | |].
  - assert (Hpick : ascending
                      (map (fun j => nth (j * Z.to_nat g + Z.to_nat (g / 2)) (_frames s) 0)
                           (seq 0 (Z.to_nat count)))).
    { apply (ascending_picks _ (fun j => (j * Z.to_nat g + Z.to_nat (g / 2))%nat));
        [exact Hasc | | exact Hidx].
      intros a b Hab. assert (0 < Z.to_nat g)%nat by lia. nia. }
    rewrite (Sequence_of_ascending _ Hpick). eexists. split; [reflexivity|].
    cbn [_frames]. split; [reflexivity|]. split.
    + rewrite length_map, length_seq. lia.
    + intros z Hz. apply in_map_iff in Hz. destruct Hz as (j & <- & Hj).
      apply in_seq in Hj. apply nth_In, Hidx. lia.
  - unfold js_div at 1. apply fl_half; [lia|]. rewrite Hgap.
    replace ((2 * Z.of_nat 0 + 1) * g) with g by lia. reflexivity.
  - rewrite Nat.add_0_l, Z2Nat.id by lia. nia.
Qed.

Lemma subsample_even_witness :
  exists r, subsample 5 sample_1_10 = Ok r /\ frames r = [2; 4; 6; 8; 10].
Proof.
  assert (Hs : instance sample_1_10)
    by (apply (I_Sequence (StrArg "1-10")); reflexivity).
  destruct (subsample_even 5 2 sample_1_10 Hs)
    as (r & Hr & Hf & _); [lia | lia | reflexivity | reflexivity |].
  exists r. split; [exact Hr|]. rewrite Hf. reflexivity.
Defined.

(** ** The default chunk size *)

Lemma singletons_concat (L : list (list Z)) :
  Forall (fun c => c <> [] /\ Z.of_nat (List.length c) <= 1) L ->
  L = map (fun f => [f]) (List.concat L).
Proof.
  induction 1 as [|c L [Hne Hlen] _ IH]; [reflexivity|].
  destruct c as [|f [|f' c]]; [contradiction | | simpl in Hlen; lia].
  cbn [List.concat app map]. f_equal. exact IH.
Qed.

(** X23 (chunk size 1).  On a Sequence instance with chunk size 1, the
    value every constructed Sequence starts with, [chunks] returns one
    single-frame Sequence for each frame, in order, whatever
    [enforceProgressions] is. *)
Theorem chunks_default_size (e : bool) (s : SequenceT) :
  instance s -> chunkSize s = 1 ->
  chunks e s = Ok (map (fun f => {| _frames := [f]; _chunkSize := 1 |}) (frames s)).
Proof.
  intros Hs H1. destruct (instance_inv s Hs) as [Hasc _].
  unfold chunkSize, frames in *.
  set (L := chunk_lists e (_chunkSize s) (_frames s) (_frames s) 0 []).
  assert (Hconcat : List.concat L = _frames s)
    by (apply chunk_lists_concat; [reflexivity | reflexivity]).
  assert (Hch : chunked e (_chunkSize s) L)
    by (apply (chunk_lists_chunked _ _ _ [] (_frames s) []); [reflexivity | simpl; lia]).
  apply chunked_Forall in Hch. rewrite H1 in Hch.
  rewrite chunks_eq. fold L. f_equal.
  rewrite (singletons_concat L Hch), Hconcat, map_map.
  apply map_ext. intros f. apply wrap_ascending. repeat constructor.
Qed.

Lemma chunks_default_size_witness :
  chunks true sample_1_5
  = Ok (map (fun f => {| _frames := [f]; _chunkSize := 1 |}) [1; 2; 3; 4; 5]).
Proof.
  apply (chunks_default_size true sample_1_5).
  - apply (I_Sequence (NumArgs 1 (Some 5%Q) None)). reflexivity.
  - reflexivity.
Defined.

(** ** [isProgression] *)


(** ** The empty sequence *)

(** X25 (the empty sequence).  On a Sequence without frames: [first()] and
    [last()] are undefined, the length is 0, the spec is the empty string,
    it counts as a progression of step 1, it has no chunks, but
    [progressions()] returns one (empty) Sequence; [offset], [scale] and
    [subsample] return an empty Sequence and the set operations behave as
    with the empty set. *)
Theorem empty_sequence (s other : SequenceT) (e : bool) (value : Q) (count : Z) :
  frames s = [] ->
  first s = None /\ last_ s = None /\ length_ s = 0 /\ spec s = ""
  /\ isProgression s = true /\ step s = Some 1
  /\ chunks e s = Ok []
  /\ progressions s = Ok [{| _frames := []; _chunkSize := 1 |}]
  /\ frames_of (offset value s) = Some []
  /\ frames_of (scale value s) = Some []
  /\ frames_of (subsample count s) = Some []
  /\ frames_of (intersection s other) = Some []
  /\ frames_of (difference s other) = Some []
  /\ frames_of (intersection other s) = Some []
  /\ (instance other ->
      frames_of (union s other) = Some (frames other)
      /\ frames_of (difference other s) = Some (frames other)).
Proof.
  intros E. unfold frames in E.
  unfold first, last_, length_, spec, isProgression, step, chunks, progressions,
    offset, scale, subsample, intersection, difference, union, frames.
  rewrite E. cbn [filter app map].
  repeat match goal with |- _ /\ _ => split end; try reflexivity.
  - cbn [List.length]. replace (Z.min (Z.max 1 count) (Z.of_nat 0)) with 0 by lia.
    reflexivity.
  - rewrite Sequence_of_frames. cbn [frames_of frames _frames].
    replace (filter (fun f => includes [] f) (_frames other)) with (@nil Z);
      [reflexivity|].
    induction (_frames other) as [|x t IH]; [reflexivity | exact IH].
  - intros Ho. destruct (instance_inv other Ho) as [Hasc _]. split.
    + rewrite (Sequence_of_ascending _ Hasc). reflexivity.
    + replace (filter (fun f => negb (includes [] f)) (_frames other))
        with (_frames other).
      * rewrite (Sequence_of_ascending _ Hasc). reflexivity.
      * clear. induction (_frames other) as [|x t IH]; [reflexivity|].
        cbn [filter includes existsb negb]. f_equal. exact IH.
Qed.

Lemma empty_sequence_witness :
  progressions sample_empty = Ok [sample_empty]
  /\ chunks true sample_empty = Ok []
  /\ step sample_empty = Some 1.
Proof.
  destruct (empty_sequence sample_empty sample_1_5 true 1 3 eq_refl)
    as (_ & _ & _ & _ & _ & Hstep & Hchunks & Hprog & _).
  split; [exact Hprog|]. split; [exact Hchunks | exact Hstep].
Defined.

(** ** Chunk sizes of results *)

(** X26 (chunk size of results).  [setChunkSize(v)] sets the chunk size to
    [max(1, v)] and leaves the frames alone.  On a Sequence instance,
    [offset], [scale] and [fill] hand the receiver's chunk size to their
    result, while every other operation returns Sequences with the default
    chunk size 1. *)
Theorem chunk_size_of_results
    (s other : SequenceT) (e : bool) (value : Q) (count v : Z) :
  instance s ->
  (chunkSize (setChunkSize v s) = Z.max 1 v /\ frames (setChunkSize v s) = frames s)
  /\ (forall r, offset value s = Ok r \/ scale value s = Ok r \/ fill value s = Ok r ->
                chunkSize r = chunkSize s)
  /\ (forall r, union s other = Ok r \/ intersection s other = Ok r
                \/ difference s other = Ok r \/ subsample count s = Ok r ->
                chunkSize r = 1)
  /\ (forall cs c, chunks e s = Ok cs \/ progressions s = Ok cs
                   \/ intersectingChunks s other = Ok cs ->
                   In c cs -> chunkSize c = 1).
Proof.
  intros Hs. destruct (instance_inv s Hs) as [_ Hsize]. unfold chunkSize.
  split; [split; reflexivity|]. split; [|split].
  - intros r [H | [H | H]]; apply with_chunk_size_inv in H;
      destruct H as (x & _ & ->); cbn [setChunkSize _chunkSize]; lia.
  - intros r [H | [H | [H | H]]]; apply Sequence_inv in H; apply H.
  - intros cs c [H | [H | H]] Hin.
    + destruct (chunks_constructed e s cs c H Hin) as (a & Ha).
      apply Sequence_inv in Ha. apply Ha.
    + destruct (mapM_In _ _ _ _ H Hin) as (p & _ & Hp).
      apply Sequence_inv in Hp. apply Hp.
    + unfold intersectingChunks in H.
      destruct (chunks true s) as [all|] eqn:Hall; [|discriminate].
      cbn [bind] in H. injection H as <-. apply filter_In in Hin.
      destruct Hin as [Hin _].
      destruct (chunks_constructed true s all c Hall Hin) as (a & Ha).
      apply Sequence_inv in Ha. apply Ha.
Qed.

Lemma chunk_size_of_results_witness :
  (forall r, offset 2 (setChunkSize 4 sample_1_5) = Ok r -> chunkSize r = 4)
  /\ (forall r, union (setChunkSize 4 sample_1_5) sample_mixed = Ok r -> chunkSize r = 1).
Proof.
  assert (Hs : instance (setChunkSize 4 sample_1_5)).
  { apply I_setChunkSize. apply (I_Sequence (NumArgs 1 (Some 5%Q) None)). reflexivity. }
  destruct (chunk_size_of_results (setChunkSize 4 sample_1_5) sample_mixed true 2 1 1 Hs)
    as (_ & Hkeep & Hreset & _).
  split.
  - intros r Hr. apply Hkeep. left. exact Hr.
  - intros r Hr. apply Hreset. left. exact Hr.
Defined.

(** ** [scale] by one half *)

Lemma Math_trunc_comp (q q' : Q) : (q == q')%Q -> Math_trunc q = Math_trunc q'.
Proof.
  destruct q as [n1 d1], q' as [n2 d2].
  unfold Qeq, Math_trunc, Numeric_number, Math_trunc_num. cbn [Qnum Qden].
  intros E.
  rewrite <- (Z.quot_mul_cancel_r n1 (Z.pos d1) (Z.pos d2)) by discriminate.
  rewrite <- (Z.quot_mul_cancel_l n2 (Z.pos d2) (Z.pos d1)) by discriminate.
  rewrite E. f_equal; lia.
Qed.

Lemma fl_half_int (q : Q) (k : Z) :
  Z.abs k < 2 ^ 53 -> (q == inject_Z k / 2)%Q -> (fl q == inject_Z k / 2)%Q.
Proof.
  intros Hk Hq. destruct (Z.lt_trichotomy k 0) as [Hneg | [-> | Hpos]].
  - assert (Hlt : (q < 0)%Q).
    { rewrite Hq. unfold Qlt, Qdiv, Qmult, Qinv. cbn. lia. }
    rewrite (fl_opp q Hlt).
    rewrite (fl_half (- q) (- k)); [| lia |].
    + rewrite inject_Z_opp. field.
    + rewrite Hq, inject_Z_opp. field.
  - assert (Hc : Qcompare q 0 = Eq).
    { apply (proj1 (Qeq_alt _ _)). rewrite Hq. reflexivity. }
    unfold fl. rewrite Hc. reflexivity.
  - apply fl_half; [lia | exact Hq].
Qed.

Lemma js_mul_half (f : Z) :
  Z.abs f < 2 ^ 53 -> Math_trunc (js_mul (inject_Z f) (1 # 2)) = Z.quot f 2.
Proof.
  intros H. change (Z.quot f 2) with (Math_trunc (f # 2)%Q).
  apply Math_trunc_comp. unfold js_mul.
  rewrite (fl_half_int _ f H).
  - unfold Qeq, Qdiv, Qmult, Qinv. cbn. lia.
  - unfold Qeq, Qdiv, Qmult, Qinv. cbn. lia.
Qed.

(** X27 ([scale] by 0.5).  On a Sequence instance whose frames are integers
    that binary64 holds exactly, [scale(0.5)] halves every frame and drops
    the fraction towards zero, for negative frames as well; frames that
    fall together are kept once. *)
Theorem scale_half (s : SequenceT) :
  instance s ->
  (forall f, In f (frames s) -> Z.abs f < 2 ^ 53) ->
  exists r,
    scale (1 # 2) s = Ok r
    /\ (forall z, In z (frames r) <-> exists f, In f (frames s) /\ z = Z.quot f 2)
    /\ length_ r <= length_ s
    /\ chunkSize r = chunkSize s.
Proof.
  intros Hs Hb. destruct (instance_inv s Hs) as [Hasc Hc].
  unfold scale. rewrite Sequence_array. cbn [bind]. eexists.
  split; [reflexivity|].
  unfold frames, chunkSize, length_, setChunkSize in *. cbn [_frames _chunkSize].
  assert (E : map Math_trunc
                (map (fun f => inject_Z (Math_trunc (js_mul (inject_Z f) (1 # 2))))
                     (_frames s))
              = map (fun f => Z.quot f 2) (_frames s)).
  { rewrite map_map. apply map_ext_in. intros f Hf.
    rewrite Math_trunc_inject_Z. apply js_mul_half, Hb, Hf. }
  rewrite E. split; [|split].
  - intros z. rewrite sort_Set_In, in_map_iff.
    split; intros (f & A & B); exists f; auto.
  - apply Nat2Z.inj_le. etransitivity; [apply sort_Set_length|].
    rewrite length_map. reflexivity.
  - apply Z.max_r, Hc.
Qed.

Lemma scale_half_witness :
  exists r,
    scale (1 # 2) {| _frames := [-3; -1; 1; 3; 4]; _chunkSize := 1 |} = Ok r
    /\ forall z, In z (frames r) <-> exists f, In f [-3; -1; 1; 3; 4] /\ z = Z.quot f 2.
Proof.
  assert (Hs : instance {| _frames := [-3; -1; 1; 3; 4]; _chunkSize := 1 |})
    by (apply canonical_instance; repeat constructor).
  assert (Hb : forall f, In f [-3; -1; 1; 3; 4] -> Z.abs f < 2 ^ 53).
  { intros f Hf. simpl in Hf.
    repeat (destruct Hf as [<- | Hf]; [reflexivity|]). contradiction. }
  destruct (scale_half _ Hs Hb) as (r & Hr & Hin & _).
  exists r. split; [exact Hr | exact Hin].
Defined.
